(** * Minimal Version Selection: a shallow embedding of
      [cmd/go/internal/mvs/mvs.go] and the properties of its build list.

    The development follows the source file function by function:
    [buildList] (graph exploration, error-path search, finalizer), [Req],
    [UpgradeAll], [Upgrade] and [Downgrade].  Go maps are finite maps
    ([gmap]), Go slices are lists, a Go [error] is an opaque message, a
    [panic] is its own outcome, and loops whose termination depends on the
    requirement graph take a fuel argument. *)

From Stdlib Require Import String Ascii List Permutation Sorted Lia.
From Stdlib Require Import Structures.OrdersEx.
From stdpp Require Import base option list gmap strings fin_maps fin_sets sorting.

#[local] Set Warnings "-clear-no-such-hyp".

Open Scope string_scope.
Open Scope nat_scope.
Open Scope list_scope.

(** ** Module versions (golang.org/x/mod/module.Version) *)

Record module_Version : Type := mkVersion { Path : string; Version : string }.

Definition Version_to_pair (m : module_Version) : string * string :=
  (Path m, Version m).
Definition Version_of_pair (p : string * string) : module_Version :=
  mkVersion (fst p) (snd p).

#[global] Instance module_Version_eq_dec : EqDecision module_Version.
Proof. solve_decision. Defined.

#[global] Instance module_Version_countable : Countable module_Version.
Proof.
  apply (inj_countable' Version_to_pair Version_of_pair).
  by intros [p v].
Defined.

(** The zero value of [module.Version], as left in an unset struct field. *)
Definition zero_Version : module_Version := mkVersion "" "".

(** The only interpreted version literal. *)
Definition none : string := "none".

(** ** Errors, results and outcomes *)

(** A Go [error] value coming out of the provider is an opaque message. *)
Definition error : Type := string.

Inductive result (A : Type) : Type :=
| Ok (a : A)
| Err (e : error).
Arguments Ok {A} a.
Arguments Err {A} e.

(** Modelled from the spec: [NewBuildListError] and its type live in
    [errors.go], which is not part of the sources at hand.  The typed error
    carries the inner error, the path from the root to the failing vertex and
    the [isUpgrade] predicate. *)
Record BuildListError : Type := NewBuildListError {
  ble_Err : error;
  ble_errPath : list module_Version;
  ble_isUpgrade : module_Version → module_Version → bool
}.

(** An [error] returned by one of the MVS entry points. *)
Inductive mvs_error : Type :=
| ProviderError (e : error)
| BuildListErr (b : BuildListError).

Inductive panic : Type :=
| MistakeChose (v : string) (target : module_Version)
| MistakeUnsatisfied (v : string) (r : module_Version)
| NilDereference.

Inductive outcome (A : Type) : Type :=
| Return (a : A)
| Fail (e : mvs_error)
| Panic (p : panic).
Arguments Return {A} a.
Arguments Fail {A} e.
Arguments Panic {A} p.

(** ** The requirement provider (interface [Reqs]) *)

Module Reqs.
Record t : Type := Build {
  Required : module_Version → result (list module_Version);
  Max : string → string → string;
  Upgrade : module_Version → result module_Version;
  Previous : module_Version → result module_Version
}.
End Reqs.

(** ** The work queue (package [par]) *)

(** Modelled from the spec: [par.Work] is not part of the sources at hand.
    [Add] enqueues an item once (duplicates by value are ignored); [Do]
    hands every enqueued item to the work function, in an order the queue
    chooses.  The workers of [Do] touch the shared state of [buildList] in
    one critical section per item, so every parallel run leaves the state of
    a sequential run that takes the items in the order of their critical
    sections; the order is the parameter [sched], which selects an index of
    the pending list. *)
Module par.
Record Work : Type := mkWork {
  todo : list module_Version;
  added : gset module_Version
}.

Definition empty : Work := mkWork [] ∅.

Definition Add (w : Work) (item : module_Version) : Work :=
  if decide (item ∈ added w) then w
  else mkWork (todo w ++ [item]) ({[item]} ∪ added w).

Definition AddAll (w : Work) (items : list module_Version) : Work :=
  foldl Add w items.

(** Take the pending item at index [i]. *)
Definition take (i : nat) (w : Work) : Work :=
  mkWork (delete i (todo w)) (added w).
End par.

(** ** [buildList]: exploration *)

Record modGraphNode : Type := mkNode {
  node_m : module_Version;
  node_required : list module_Version;
  node_upgrade : module_Version;
  node_err : option error
}.

(** The variables shared by the workers of [buildList]. *)
Record explorer : Type := mkExplorer {
  work : par.Work;
  modGraph : gmap module_Version modGraphNode;
  min : gmap string string;
  haveErr : bool
}.

Definition upgrade_fn : Type := module_Version → result module_Version.

(** [setErr]: record the error on the node and raise the flag. *)
Definition setErr (n : modGraphNode) (e : error) (st : explorer) : explorer :=
  mkExplorer (work st)
    (<[node_m n := mkNode (node_m n) (node_required n) (node_upgrade n) (Some e)]>
       (modGraph st))
    (min st) true.

(** The map update made under the mutex. *)
Definition register (Max : string → string → string) (m : module_Version)
    (st : explorer) : explorer :=
  mkExplorer (work st)
    (<[m := mkNode m [] zero_Version None]> (modGraph st))
    (if decide (Version m ≠ none) then
       match min st !! Path m with
       | Some v =>
           if decide (Max v (Version m) ≠ v) then <[Path m := Version m]> (min st)
           else min st
       | None => <[Path m := Version m]> (min st)
       end
     else min st)
    (haveErr st).

Definition store_node (n : modGraphNode) (st : explorer) : explorer :=
  mkExplorer (work st) (<[node_m n := n]> (modGraph st)) (min st) (haveErr st).

Definition add_work (items : list module_Version) (st : explorer) : explorer :=
  mkExplorer (par.AddAll (work st) items) (modGraph st) (min st) (haveErr st).

Section Explore.
Context (reqs : Reqs.t) (upgrade : option upgrade_fn).

(** The upgrade part of the work function, run on a node whose
    requirements are already stored. *)
Definition visit_upgrade (node : modGraphNode) (st : explorer) : explorer :=
  match upgrade with
  | None => st
  | Some up =>
      match up (node_m node) with
      | Err e => setErr node e st
      | Ok u =>
          if decide (u ≠ node_m node) then
            add_work [u]
              (store_node (mkNode (node_m node) (node_required node) u (node_err node)) st)
          else st
      end
  end.

(** The function literal passed to [work.Do]. *)
Definition visit (m : module_Version) (st : explorer) : explorer :=
  let node := mkNode m [] zero_Version None in
  let st := register (Reqs.Max reqs) m st in
  if decide (Version m ≠ none) then
    match Reqs.Required reqs m with
    | Err e => setErr node e st
    | Ok required =>
        let node := mkNode m required zero_Version None in
        visit_upgrade node (add_work required (store_node node st))
    end
  else visit_upgrade node st.

Context (sched : list module_Version → nat).

Definition pending (st : explorer) : list module_Version := par.todo (work st).

(** A worker takes the pending item at index [i]. *)
Definition dequeue (i : nat) (st : explorer) : explorer :=
  mkExplorer (par.take i (work st)) (modGraph st) (min st) (haveErr st).

(** [work.Do]: run the work function on pending items until none is left. *)
Fixpoint Do (fuel : nat) (st : explorer) : option explorer :=
  match pending st with
  | [] => Some st
  | first :: _ =>
      match fuel with
      | O => None
      | S fuel' =>
          let i := sched (pending st) `mod` length (pending st) in
          let item := nth i (pending st) first in
          Do fuel'
            (visit item
               (mkExplorer (par.take i (work st)) (modGraph st) (min st) (haveErr st)))
      end
  end.
End Explore.

(** ** [buildList]: the shortest path to a failing vertex *)

(** A [*modGraphNode]: [None] is the nil pointer.  After the exploration the
    nodes are no longer written, so a pointer is modelled by the node it
    points to; [modGraph] holds one node per version, whose field [m] is its
    key, so a pointer used as a map key is identified by that field. *)
Definition node_ptr : Type := option modGraphNode.

Definition ptr_key (p : node_ptr) : option module_Version := node_m <$> p.

Inductive search (A : Type) : Type :=
| Found (a : A)
| NotFound
| NilPointer.
Arguments Found {A} a.
Arguments NotFound {A}.
Arguments NilPointer {A}.

Section ErrorPath.
Context (modGraph : gmap module_Version modGraphNode).

(** The loop [for n, prev := neededBy[node], node; n != nil; ...], which
    builds the reversed path and the upgrade edges on it. *)
Fixpoint walk_back (fuel : nat) (neededBy : gmap (option module_Version) modGraphNode)
    (n : node_ptr) (prev : modGraphNode)
    (errPath : list module_Version) (pathUpgrade : gmap module_Version module_Version)
    : option (list module_Version * gmap module_Version module_Version) :=
  match n with
  | None => Some (errPath, pathUpgrade)
  | Some n' =>
      match fuel with
      | O => None
      | S fuel' =>
          let pathUpgrade :=
            if decide (node_upgrade n' = node_m prev)
            then <[node_m n' := node_m prev]> pathUpgrade else pathUpgrade in
          walk_back fuel' neededBy (neededBy !! Some (node_m n')) n'
            (errPath ++ [node_m n']) pathUpgrade
      end
  end.

Definition isUpgrade (pathUpgrade : gmap module_Version module_Version)
    (from to : module_Version) : bool :=
  bool_decide (default zero_Version (pathUpgrade !! from) = to).

Definition neighbors (node : modGraphNode) : list module_Version :=
  if decide (Path (node_upgrade node) ≠ "")
  then node_required node ++ [node_upgrade node]
  else node_required node.

(** The loop over the neighbours of a dequeued node. *)
Definition discover (node : modGraphNode)
    (acc : gmap (option module_Version) modGraphNode * list node_ptr)
    (neighbor : module_Version)
    : gmap (option module_Version) modGraphNode * list node_ptr :=
  let nn : node_ptr := modGraph !! neighbor in
  match acc.1 !! ptr_key nn with
  | Some _ => acc
  | None => (<[ptr_key nn := node]> acc.1, acc.2 ++ [nn])
  end.

(** The loop [for len(q) > 0]; [budget] bounds the steps of the inner loop
    that walks back from the failing node. *)
Fixpoint error_path (budget fuel : nat)
    (neededBy : gmap (option module_Version) modGraphNode)
    (q : list node_ptr) : option (search BuildListError) :=
  match q with
  | [] => Some NotFound
  | None :: _ => Some NilPointer
  | Some node :: q =>
      match node_err node with
      | Some e =>
          match walk_back budget neededBy (neededBy !! Some (node_m node)) node
                  [node_m node] ∅ with
          | None => None
          | Some (errPath, pathUpgrade) =>
              Some (Found (NewBuildListError e (reverse errPath) (isUpgrade pathUpgrade)))
          end
      | None =>
          match fuel with
          | O => None
          | S fuel' =>
              let '(neededBy, q) := foldl (discover node) (neededBy, q) (neighbors node) in
              error_path budget fuel' neededBy q
          end
      end
  end.
End ErrorPath.

(** ** [buildList]: the finalizer *)

(** [tail[i].Path < tail[j].Path] on Go strings: bytewise lexicographic. *)
Definition path_less (a b : module_Version) : bool :=
  match String_as_OT.compare (Path a) (Path b) with
  | Lt => true
  | _ => false
  end.

(** [sort.Slice(tail, less)].  The library sort is not stable; the model is
    an insertion sort, which returns the same slice whenever no two elements
    compare equal, as is the case for the keys of a map. *)
Fixpoint sort_insert (x : module_Version) (l : list module_Version) : list module_Version :=
  match l with
  | [] => [x]
  | y :: l' => if path_less y x then y :: sort_insert x l' else x :: l
  end.

Definition sort_Slice (l : list module_Version) : list module_Version :=
  foldr sort_insert [] l.

Section Finalize.
Context (target : module_Version) (reqs : Reqs.t).
Context (modGraph : gmap module_Version modGraphNode) (min : gmap string string).

(** The inner loop over [n.required]. *)
Fixpoint check_required (required : list module_Version) : option panic :=
  match required with
  | [] => None
  | r :: required =>
      if decide (Version r = none) then check_required required
      else
        let v := default "" (min !! Path r) in
        if decide (Path r ≠ Path target ∧ Reqs.Max reqs v (Version r) ≠ v)
        then Some (MistakeUnsatisfied v r)
        else check_required required
  end.

(** The loop [for path, vers := range min]; Go leaves the iteration order
    open, the model takes the entries in the order of [map_to_list]. *)
Fixpoint collect (entries : list (string * string)) (acc : list module_Version)
    : outcome (list module_Version) :=
  match entries with
  | [] => Return acc
  | (path, vers) :: entries =>
      let acc := if decide (path ≠ Path target) then acc ++ [mkVersion path vers] else acc in
      match modGraph !! mkVersion path vers with
      | None => Panic NilDereference
      | Some n =>
          match check_required (node_required n) with
          | Some p => Panic p
          | None => collect entries acc
          end
      end
  end.

Definition finalize : outcome (list module_Version) :=
  let v := default "" (min !! Path target) in
  if decide (v ≠ Version target) then Panic (MistakeChose v target)
  else
    match collect (map_to_list min) [target] with
    | Return built =>
        match built with
        | [] => Return []
        | first :: tail => Return (first :: sort_Slice tail)
        end
    | other => other
    end.
End Finalize.

(** ** [buildList] and [BuildList] *)

Definition explore_init (target : module_Version) : explorer :=
  mkExplorer (par.Add par.empty target) ∅ ∅ false.

(** The part of [buildList] after [work.Do]: report the error path when an
    error was recorded, else finalize. *)
Definition conclude (fuel : nat) (target : module_Version) (reqs : Reqs.t)
    (st : explorer) : option (outcome (list module_Version)) :=
  if haveErr st then
    found ← error_path (modGraph st) fuel fuel ∅ [modGraph st !! target];
    match found with
    | Found b => Some (Fail (BuildListErr b))
    | NilPointer => Some (Panic NilDereference)
    | NotFound => Some (finalize target reqs (modGraph st) (min st))
    end
  else Some (finalize target reqs (modGraph st) (min st)).

Definition buildList (sched : list module_Version → nat) (fuel : nat)
    (target : module_Version) (reqs : Reqs.t) (upgrade : option upgrade_fn)
    : option (outcome (list module_Version)) :=
  st ← Do reqs upgrade sched fuel (explore_init target);
  conclude fuel target reqs st.

Definition BuildList (sched : list module_Version → nat) (fuel : nat)
    (target : module_Version) (reqs : Reqs.t) : option (outcome (list module_Version)) :=
  buildList sched fuel target reqs None.

(** ** Loops over a slice whose body may fail or run out of fuel *)

Section Loops.
Context {A S : Type}.

(** [for _, x := range l { if err := f(x); err != nil { return err } }] *)
Fixpoint for_each (f : A → S → option (result S)) (l : list A) (s : S)
    : option (result S) :=
  match l with
  | [] => Some (Ok s)
  | x :: l =>
      match f x s with
      | Some (Ok s) => for_each f l s
      | other => other
      end
  end.

(** [for _, x := range l { f(x) }] *)
Fixpoint for_all (f : A → S → option S) (l : list A) (s : S) : option S :=
  match l with
  | [] => Some s
  | x :: l => s ← f x s; for_all f l s
  end.
End Loops.

(** ** [Req] *)

Section Req.
Context (reqs : Reqs.t).

(** The first [walk]: post-order over the requirements, caching them. *)
Record req_walk : Type := mkReqWalk {
  reqCache : gmap module_Version (list module_Version);
  postorder : list module_Version
}.

Fixpoint walk (fuel : nat) (m : module_Version) (st : req_walk)
    : option (result req_walk) :=
  match fuel with
  | O => None
  | S fuel' =>
      match reqCache st !! m with
      | Some _ => Some (Ok st)
      | None =>
          match Reqs.Required reqs m with
          | Err e => Some (Err e)
          | Ok required =>
              match for_each (walk fuel') required
                      (mkReqWalk (<[m := required]> (reqCache st)) (postorder st)) with
              | Some (Ok st) => Some (Ok (mkReqWalk (reqCache st) (postorder st ++ [m])))
              | other => other
              end
          end
      end
  end.

(** The second [walk]: mark everything a module implies. *)
Fixpoint walk_have (cache : gmap module_Version (list module_Version))
    (fuel : nat) (m : module_Version) (have : gset module_Version)
    : option (gset module_Version) :=
  match fuel with
  | O => None
  | S fuel' =>
      if decide (m ∈ have) then Some have
      else for_all (walk_have cache fuel') (default [] (cache !! m)) ({[m]} ∪ have)
  end.

(** [max[m.Path]] over the build list. *)
Definition max_of (list : list module_Version) : gmap string string :=
  foldl (λ (max : gmap string string) m,
           match max !! Path m with
           | Some v => <[Path m := Reqs.Max reqs (Version m) v]> max
           | None => <[Path m := Version m]> max
           end) ∅ list.

Record req_min : Type := mkReqMin {
  rm_min : list module_Version;
  rm_have : gset module_Version
}.

(** The loop over [base]. *)
Definition req_base (cache : gmap module_Version (list module_Version))
    (max : gmap string string) (fuel : nat) (path : string) (st : req_min)
    : option req_min :=
  let m := mkVersion path (default "" (max !! path)) in
  have ← walk_have cache fuel m (rm_have st);
  Some (mkReqMin (rm_min st ++ [m]) have).

(** The loop over the reversed post-order. *)
Definition req_rest (cache : gmap module_Version (list module_Version))
    (max : gmap string string) (fuel : nat) (m : module_Version) (st : req_min)
    : option req_min :=
  if decide (default "" (max !! Path m) ≠ Version m) then Some st
  else if decide (m ∈ rm_have st) then Some st
  else
    have ← walk_have cache fuel m (rm_have st);
    Some (mkReqMin (rm_min st ++ [m]) have).

Definition Req (sched : list module_Version → nat) (fuel : nat)
    (target : module_Version) (base : list string)
    : option (outcome (list module_Version)) :=
  built ← BuildList sched fuel target reqs;
  match built with
  | Return list =>
      walked ← for_each (walk fuel) list (mkReqWalk {[target := []]} []);
      match walked with
      | Err e => Some (Fail (ProviderError e))
      | Ok w =>
          let max := max_of list in
          st ← for_all (req_base (reqCache w) max fuel) base (mkReqMin [] ∅);
          st ← for_all (req_rest (reqCache w) max fuel) (reverse (postorder w)) st;
          Some (Return (sort_Slice (rm_min st)))
      end
  | other => Some other
  end.
End Req.

(** ** [UpgradeAll] and [Upgrade] *)

(** The function literal of [UpgradeAll]. *)
Definition upgradeAll_fn (target : module_Version) (reqs : Reqs.t) : upgrade_fn :=
  λ m, if decide (Path m = Path target) then Ok target else Reqs.Upgrade reqs m.

Definition UpgradeAll (sched : list module_Version → nat) (fuel : nat)
    (target : module_Version) (reqs : Reqs.t) : option (outcome (list module_Version)) :=
  buildList sched fuel target reqs (Some (upgradeAll_fn target reqs)).

(** [type override struct]: [reqs] with the requirements of [target] replaced. *)
Definition override (target : module_Version) (list : list module_Version)
    (reqs : Reqs.t) : Reqs.t :=
  Reqs.Build
    (λ m, if decide (m = target) then Ok list else Reqs.Required reqs m)
    (Reqs.Max reqs) (Reqs.Upgrade reqs) (Reqs.Previous reqs).

Section Upgrade.
Context (reqs : Reqs.t).

(** The loop over the [upgrade] arguments: extend the requirement list and
    fill [upgradeTo]. *)
Definition upgrade_step (pathInList : gset string)
    (acc : list module_Version * gmap string string) (u : module_Version)
    : list module_Version * gmap string string :=
  (if decide (Path u ∈ pathInList) then acc.1 else acc.1 ++ [mkVersion (Path u) none],
   match acc.2 !! Path u with
   | Some prev => <[Path u := Reqs.Max reqs prev (Version u)]> acc.2
   | None => <[Path u := Version u]> acc.2
   end).

(** The function literal of [Upgrade]. *)
Definition upgrade_to_fn (upgradeTo : gmap string string) : upgrade_fn :=
  λ m, match upgradeTo !! Path m with
       | Some v => Ok (mkVersion (Path m) v)
       | None => Ok m
       end.

Definition upgradeTo_of (upgrade : list module_Version) : gmap string string :=
  (foldl (upgrade_step ∅) ([], ∅) upgrade).2.

Definition Upgrade (sched : list module_Version → nat) (fuel : nat)
    (target : module_Version) (upgrade : list module_Version)
    : option (outcome (list module_Version)) :=
  match Reqs.Required reqs target with
  | Err e => Some (Fail (ProviderError e))
  | Ok list =>
      let pathInList : gset string := list_to_set (Path <$> list) in
      let '(list, upgradeTo) := foldl (upgrade_step pathInList) (list, ∅) upgrade in
      buildList sched fuel target (override target list reqs)
        (Some (upgrade_to_fn upgradeTo))
  end.
End Upgrade.

(** ** [Downgrade] *)

Record downgrade_state : Type := mkDowngrade {
  added : gset module_Version;
  rdeps : gmap module_Version (list module_Version);
  excluded : gset module_Version
}.

Section Downgrade.
Context (reqs : Reqs.t).

(** The caps: [max[r.Path]] after the two initial loops. *)
Definition caps (list downgrade : list module_Version) : gmap string string :=
  foldl (λ (max : gmap string string) d,
           match max !! Path d with
           | Some v =>
               if decide (Reqs.Max reqs v (Version d) ≠ Version d)
               then <[Path d := Version d]> max else max
           | None => <[Path d := Version d]> max
           end)
    (foldl (λ (max : gmap string string) r, <[Path r := Version r]> max) ∅ list)
    downgrade.

Fixpoint exclude (fuel : nat) (m : module_Version) (st : downgrade_state)
    : option downgrade_state :=
  match fuel with
  | O => None
  | S fuel' =>
      if decide (m ∈ excluded st) then Some st
      else for_all (exclude fuel') (default [] (rdeps st !! m))
             (mkDowngrade (added st) (rdeps st) ({[m]} ∪ excluded st))
  end.

Context (max : gmap string string).

(** The loop [for _, r := range list] of [add], which stops after
    [exclude(m)] when a requirement is excluded. *)
Fixpoint add_reqs (add : module_Version → downgrade_state → option downgrade_state)
    (fuel : nat) (m : module_Version) (list : list module_Version)
    (st : downgrade_state) : option downgrade_state :=
  match list with
  | [] => Some st
  | r :: list =>
      st ← add r st;
      if decide (r ∈ excluded st) then exclude fuel m st
      else add_reqs add fuel m list
             (mkDowngrade (added st)
                (<[r := default [] (rdeps st !! r) ++ [m]]> (rdeps st))
                (excluded st))
  end.

Fixpoint add (fuel : nat) (m : module_Version) (st : downgrade_state)
    : option downgrade_state :=
  match fuel with
  | O => None
  | S fuel' =>
      if decide (m ∈ added st) then Some st
      else
        let st := mkDowngrade ({[m]} ∪ added st) (rdeps st) (excluded st) in
        let above :=
          match max !! Path m with
          | Some v => bool_decide (Reqs.Max reqs (Version m) v ≠ v)
          | None => false
          end in
        if above then exclude fuel' m st
        else
          match Reqs.Required reqs m with
          | Err _ => exclude fuel' m st
          | Ok list => add_reqs (add fuel') fuel' m list st
          end
  end.

(** The loop [for excluded[r]]: [None] in the result means [continue List],
    the requirement is dropped. *)
Fixpoint lower (fuel : nat) (r : module_Version) (st : downgrade_state)
    : option (result (option module_Version * downgrade_state)) :=
  if decide (r ∈ excluded st) then
    match fuel with
    | O => None
    | S fuel' =>
        match Reqs.Previous reqs r with
        | Err e => Some (Err e)
        | Ok p =>
            let v := default "" (max !! Path r) in
            let p :=
              if decide (Reqs.Max reqs v (Version r) ≠ v
                         ∧ Reqs.Max reqs (Version p) v ≠ Version p)
              then mkVersion (Path p) v else p in
            if decide (Version p = none) then Some (Ok (None, st))
            else st ← add fuel' p st; lower fuel' p st
        end
    end
  else Some (Ok (Some r, st)).

(** The body of the loop labelled [List]. *)
Definition downgrade_req (fuel : nat) (r : module_Version)
    (acc : list module_Version * downgrade_state)
    : option (result (list module_Version * downgrade_state)) :=
  st ← add fuel r acc.2;
  res ← lower fuel r st;
  match res with
  | Err e => Some (Err e)
  | Ok (Some r, st) => Some (Ok (acc.1 ++ [r], st))
  | Ok (None, st) => Some (Ok (acc.1, st))
  end.
End Downgrade.

Definition Downgrade (fuel : nat) (target : module_Version) (reqs : Reqs.t)
    (downgrade : list module_Version) : option (outcome (list module_Version)) :=
  match Reqs.Required reqs target with
  | Err e => Some (Fail (ProviderError e))
  | Ok list =>
      let max := caps reqs list downgrade in
      res ← for_each (downgrade_req reqs max fuel) list ([target], mkDowngrade ∅ ∅ ∅);
      match res with
      | Err e => Some (Fail (ProviderError e))
      | Ok (out, _) => Some (Return out)
      end
  end.

(** ** Scenarios of the specification, on a test provider *)

Module Scenarios.
(** A provider given by its requirement table; versions are compared as
    strings, and the empty version of the main module is the greatest. *)
Definition table : Type := list (module_Version * result (list module_Version)).

Fixpoint lookup_table (t : table) (m : module_Version) : result (list module_Version) :=
  match t with
  | [] => Err ("missing module: " +:+ Path m +:+ "@" +:+ Version m)
  | (k, r) :: t => if decide (k = m) then r else lookup_table t m
  end.

Definition plain_max (v1 v2 : string) : string :=
  match String_as_OT.compare v1 v2 with Lt => v2 | _ => v1 end.

Definition str_max (v1 v2 : string) : string :=
  if decide (v1 = "") then v1
  else if decide (v2 = "") then v2
  else if decide (v1 = none) then v2
  else if decide (v2 = none) then v1
  else plain_max v1 v2.

Definition provider (t : table) : Reqs.t :=
  Reqs.Build (lookup_table t) str_max (λ m, Ok m) (λ m, Ok (mkVersion (Path m) none)).

(** The same provider with another comparison. *)
Definition provider_max (t : table) (max : string → string → string) : Reqs.t :=
  Reqs.Build (lookup_table t) max (λ m, Ok m) (λ m, Ok (mkVersion (Path m) none)).

(** A comparison that keeps the main module and drops "none" as the
    provider must, and otherwise prefers its second argument. *)
Definition last_max (v1 v2 : string) : string :=
  if decide (v1 = "") then v1
  else if decide (v2 = none) then v1
  else v2.

(** A comparison that does not return one of its arguments. *)
Definition odd_max (v1 v2 : string) : string :=
  if decide (v1 = v2) then "x" else str_max v1 v2.

Definition fifo : list module_Version → nat := λ _, 0.
Definition lifo : list module_Version → nat := λ l, length l - 1.

Definition V (p v : string) : module_Version := mkVersion p v.
Definition root : module_Version := V "A" "".

Definition S1 : table := [(root, Ok [])].
Definition S2 : table :=
  [(root, Ok [V "B" "1"; V "C" "1"]); (V "B" "1", Ok [V "C" "2"]);
   (V "C" "1", Ok []); (V "C" "2", Ok [])].
Definition S3 : table :=
  [(V "R" "", Ok [V "B" "none"; V "C" "1"]); (V "C" "1", Ok [V "B" "2"]);
   (V "B" "2", Ok [])].
Definition S4 : table :=
  [(V "R" "", Ok [V "A" "1"]); (V "A" "1", Ok [V "B" "1"]); (V "B" "1", Err "E")].

Definition two_versions : table :=
  [(root, Ok [V "B" "1"; V "B" "2"]); (V "B" "1", Ok []); (V "B" "2", Ok [])].

Definition self_loop : table := [(root, Ok [root])].

(** S5: the versions of [A] in decreasing order, for [Previous]. *)
Definition S5 : table :=
  [(V "R" "", Ok [V "A" "3"]); (V "A" "3", Ok [V "B" "3"]);
   (V "A" "2", Ok [V "B" "2"]); (V "A" "1", Ok [V "B" "1"]);
   (V "B" "3", Ok []); (V "B" "2", Ok []); (V "B" "1", Ok [])].

Definition previous_digit (m : module_Version) : result module_Version :=
  Ok (mkVersion (Path m)
        (if decide (Version m = "3") then "2"
         else if decide (Version m = "2") then "1" else none)).

Definition provider_prev (t : table) (prev : upgrade_fn) : Reqs.t :=
  Reqs.Build (lookup_table t) str_max (λ m, Ok m) prev.

(** A repository that cannot be reached when asked for an earlier version. *)
Definition previous_fails (m : module_Version) : result module_Version := Err "E".
End Scenarios.


(** * Properties *)

(** ** The work function in closed form *)

Section VisitFacts.
Context (reqs : Reqs.t) (upgrade : option upgrade_fn).

(** What the upgrade part contributes for [m]: the error, or the upgrade
    target when it differs from [m]. *)
Definition upgrade_of (m : module_Version) : result (option module_Version) :=
  match upgrade with
  | None => Ok None
  | Some up =>
      match up m with
      | Err e => Err e
      | Ok u => if decide (u ≠ m) then Ok (Some u) else Ok None
      end
  end.

Definition with_upgrade (node : modGraphNode) : modGraphNode :=
  match upgrade_of (node_m node) with
  | Err e => mkNode (node_m node) (node_required node) (node_upgrade node) (Some e)
  | Ok (Some u) => mkNode (node_m node) (node_required node) u (node_err node)
  | Ok None => node
  end.

(** The node that [visit] leaves in [modGraph] for [m]. *)
Definition node_of (m : module_Version) : modGraphNode :=
  if decide (Version m ≠ none) then
    match Reqs.Required reqs m with
    | Err e => mkNode m [] zero_Version (Some e)
    | Ok required => with_upgrade (mkNode m required zero_Version None)
    end
  else with_upgrade (mkNode m [] zero_Version None).

Definition upgrade_edge (m : module_Version) : list module_Version :=
  match upgrade_of m with
  | Ok (Some u) => [u]
  | _ => []
  end.

(** The items that [visit] hands to [work.Add] for [m]. *)
Definition out_edges (m : module_Version) : list module_Version :=
  if decide (Version m ≠ none) then
    match Reqs.Required reqs m with
    | Err e => []
    | Ok required => required ++ upgrade_edge m
    end
  else upgrade_edge m.

Definition min_update (m : module_Version) (mn : gmap string string) : gmap string string :=
  if decide (Version m ≠ none) then
    match mn !! Path m with
    | Some v =>
        if decide (Reqs.Max reqs v (Version m) ≠ v) then <[Path m := Version m]> mn
        else mn
    | None => <[Path m := Version m]> mn
    end
  else mn.

Lemma AddAll_app w l1 l2 : par.AddAll (par.AddAll w l1) l2 = par.AddAll w (l1 ++ l2).
Proof. unfold par.AddAll. by rewrite foldl_app. Qed.

Definition has_err (n : modGraphNode) : bool :=
  match node_err n with Some _ => true | None => false end.

Lemma visit_upgrade_eq node st :
  node_err node = None →
  visit_upgrade upgrade node st =
  mkExplorer (par.AddAll (work st) (upgrade_edge (node_m node)))
    (match upgrade_of (node_m node) with
     | Ok None => modGraph st
     | _ => <[node_m node := with_upgrade node]> (modGraph st)
     end)
    (min st)
    (haveErr st || has_err (with_upgrade node)).
Proof.
  intros Hnone.
  unfold visit_upgrade, upgrade_edge, with_upgrade, upgrade_of, has_err.
  destruct upgrade as [up|]; simpl.
  - destruct (up (node_m node)) as [u|e]; simpl.
    + destruct (decide (u ≠ node_m node)); simpl; rewrite Hnone, orb_false_r.
      * done.
      * by destruct st.
    + by rewrite orb_true_r.
  - rewrite Hnone, orb_false_r. by destruct st.
Qed.

Lemma visit_eq m st :
  visit reqs upgrade m st =
  mkExplorer (par.AddAll (work st) (out_edges m))
    (<[m := node_of m]> (modGraph st))
    (min_update m (min st))
    (haveErr st || has_err (node_of m)).
Proof.
  unfold visit, node_of, out_edges.
  destruct (decide (Version m ≠ none)) as [Hv|Hv].
  - destruct (Reqs.Required reqs m) as [required|e] eqn:Hreq.
    + rewrite visit_upgrade_eq by done. simpl.
      rewrite AddAll_app. unfold min_update. rewrite decide_True by done.
      f_equal. unfold with_upgrade; simpl.
      destruct (upgrade_of m) as [[u|]|e]; simpl; by rewrite ?insert_insert_eq.
    + unfold setErr, register, min_update, has_err; simpl.
      rewrite insert_insert_eq, orb_true_r, decide_True; done.
  - rewrite visit_upgrade_eq by done. simpl.
    unfold min_update. rewrite decide_False by done.
    f_equal. unfold with_upgrade; simpl.
    destruct (upgrade_of m) as [[u|]|e]; simpl; by rewrite ?insert_insert_eq.
Qed.
End VisitFacts.

(** ** The work queue *)

Lemma Add_added w x : par.added (par.Add w x) = {[x]} ∪ par.added w.
Proof.
  unfold par.Add. destruct (decide (x ∈ par.added w)); simpl; [set_solver|done].
Qed.

Lemma AddAll_added w l : par.added (par.AddAll w l) = list_to_set l ∪ par.added w.
Proof.
  revert w. induction l as [|x l IH]; intros w; simpl; [set_solver|].
  unfold par.AddAll in *. simpl. rewrite IH, Add_added. set_solver.
Qed.

(** The pending items are distinct and were all added. *)
Definition queue_ok (w : par.Work) : Prop :=
  NoDup (par.todo w) ∧ ∀ x, x ∈ par.todo w → x ∈ par.added w.

Lemma Add_todo w x y :
  y ∈ par.todo (par.Add w x) ↔ y ∈ par.todo w ∨ (y = x ∧ x ∉ par.added w).
Proof.
  unfold par.Add. destruct (decide (x ∈ par.added w)); simpl.
  - naive_solver.
  - rewrite elem_of_app, list_elem_of_singleton. naive_solver.
Qed.

Lemma Add_ok w x : queue_ok w → queue_ok (par.Add w x).
Proof.
  intros [Hnd Hsub]. split.
  - unfold par.Add. destruct (decide (x ∈ par.added w)); simpl; [done|].
    apply NoDup_app. split_and!; [done| |apply NoDup_singleton].
    intros y Hy ->%list_elem_of_singleton. auto.
  - intros y [Hy|[-> _]]%Add_todo; rewrite Add_added; set_solver.
Qed.

Lemma AddAll_ok w l : queue_ok w → queue_ok (par.AddAll w l).
Proof.
  revert w. induction l as [|x l IH]; intros w Hw; [done|].
  apply IH. by apply Add_ok.
Qed.

Lemma AddAll_todo w l y :
  y ∈ par.todo (par.AddAll w l) ↔ y ∈ par.todo w ∨ (y ∈ l ∧ y ∉ par.added w).
Proof.
  revert w. induction l as [|x l IH]; intros w.
  - simpl. set_solver.
  - change (par.AddAll w (x :: l)) with (par.AddAll (par.Add w x) l).
    rewrite IH, Add_todo, Add_added. rewrite elem_of_cons.
    destruct (decide (y = x)) as [->|]; set_solver.
Qed.

(** ** Invariants of the exploration *)

Section Exploration.
Context (reqs : Reqs.t) (upgrade : option upgrade_fn) (target : module_Version).

(** The vertices the explorer reaches from the target: it follows the
    requirements of every vertex whose version is not "none" and whose
    requirements load, and the upgrade of every vertex when there is one. *)
Inductive reachable : module_Version → Prop :=
| reachable_target : reachable target
| reachable_edge u r :
    reachable u → r ∈ out_edges reqs upgrade u → reachable r.

Record explored (st : explorer) : Prop := {
  ex_queue : queue_ok (work st);
  ex_split : ∀ x, x ∈ par.added (work st) → x ∈ dom (modGraph st) ∨ x ∈ pending st;
  ex_done : ∀ x, x ∈ dom (modGraph st) → x ∈ par.added (work st) ∧ x ∉ pending st;
  ex_target : target ∈ par.added (work st);
  ex_node : ∀ k n, modGraph st !! k = Some n → n = node_of reqs upgrade k;
  ex_edges : ∀ k r, k ∈ dom (modGraph st) → r ∈ out_edges reqs upgrade k →
             r ∈ par.added (work st);
  ex_reach : ∀ x, x ∈ par.added (work st) → reachable x;
  ex_min : ∀ p s, min st !! p = Some s → s ≠ none ∧ mkVersion p s ∈ dom (modGraph st);
  ex_min_def : ∀ k, k ∈ dom (modGraph st) → Version k ≠ none →
               is_Some (min st !! Path k);
  ex_err : haveErr st = true ↔
           ∃ k, k ∈ dom (modGraph st) ∧ has_err (node_of reqs upgrade k) = true
}.

Lemma explored_init : explored (explore_init target).
Proof.
  unfold explore_init. split; simpl.
  - apply Add_ok. split; [constructor|]. by intros x ?%elem_of_nil.
  - intros x. unfold pending; simpl. rewrite Add_added, Add_todo; simpl. set_solver.
  - intros x. rewrite dom_empty_L. set_solver.
  - rewrite Add_added. set_solver.
  - intros k n. by rewrite lookup_empty.
  - intros k r. rewrite dom_empty_L. set_solver.
  - intros x. rewrite Add_added; simpl. intros Hx.
    assert (x = target) as -> by set_solver. constructor.
  - intros p s. by rewrite lookup_empty.
  - intros k. rewrite dom_empty_L. set_solver.
  - split; [done|]. intros (k & Hk & _). set_solver.
Qed.

Lemma delete_elem_of (l : list module_Version) i item x :
  NoDup l → l !! i = Some item → x ∈ delete i l ↔ x ∈ l ∧ x ≠ item.
Proof.
  intros Hnd Hi. pose proof (delete_Permutation l i item Hi) as Hp.
  rewrite Hp in Hnd. apply NoDup_cons in Hnd as [Hni Hnd'].
  rewrite Hp at 2. rewrite elem_of_cons. naive_solver.
Qed.

Lemma delete_NoDup (l : list module_Version) i : NoDup l → NoDup (delete i l).
Proof.
  intros Hnd. eapply sublist_NoDup; [done|]. apply sublist_delete.
Qed.

Lemma explored_visit st i item :
  explored st → pending st !! i = Some item →
  explored (visit reqs upgrade item (dequeue i st)).
Proof.
  intros Hex Hi. rewrite visit_eq.
  destruct Hex as [[Hnd Hsub] Hsplit Hdone Htarget Hnode Hedges Hreach Hmin Hdef Herr].
  assert (Hitem : item ∈ pending st) by (by eapply list_elem_of_lookup_2).
  assert (Hdel : ∀ x, x ∈ delete i (pending st) ↔ x ∈ pending st ∧ x ≠ item)
    by (intros x; by apply delete_elem_of).
  assert (Hq : queue_ok (par.take i (work st))).
  { split; simpl; [by apply delete_NoDup|]. intros x Hx%Hdel. apply Hsub, Hx. }
  split; simpl.
  - by apply AddAll_ok.
  - intros x. unfold pending; simpl. rewrite AddAll_added, AddAll_todo; simpl.
    rewrite dom_insert_L, Hdel.
    destruct (decide (x = item)) as [->|]; [set_solver|].
    destruct (decide (x ∈ par.added (work st))) as [Hx|Hx].
    + destruct (Hsplit x Hx); set_solver.
    + set_solver.
  - intros x. unfold pending; simpl. rewrite AddAll_added, AddAll_todo; simpl.
    rewrite dom_insert_L, Hdel. intros [->%elem_of_singleton|Hx]%elem_of_union.
    + split; [apply elem_of_union_r; auto|]. intros [[_ ?]|[_ ?]]; [done|].
      auto.
    + destruct (Hdone x Hx) as [? ?]. split; [set_solver|]. naive_solver.
  - rewrite AddAll_added. set_solver.
  - intros k n. destruct (decide (k = item)) as [->|Hne].
    + rewrite lookup_insert_eq. by intros [= <-].
    + rewrite lookup_insert_ne by done. apply Hnode.
  - intros k r. rewrite AddAll_added, dom_insert_L; simpl.
    intros [->%elem_of_singleton|Hk]%elem_of_union Hr.
    + apply elem_of_union_l. by apply elem_of_list_to_set.
    + apply elem_of_union_r. eauto.
  - intros x. rewrite AddAll_added; simpl.
    intros [Hx%elem_of_list_to_set|Hx]%elem_of_union; [|by auto].
    eapply reachable_edge; [|done]. auto.
  - intros p s. rewrite dom_insert_L. unfold min_update.
    destruct (decide (Version item ≠ none)) as [Hv|Hv].
    + assert (Hins : <[Path item := Version item]> (min st) !! p = Some s →
                     s ≠ none ∧ mkVersion p s ∈ ({[item]} ∪ dom (modGraph st) : gset _)).
      { destruct (decide (p = Path item)) as [->|Hp].
        - rewrite lookup_insert_eq. intros [= <-]. split; [done|].
          destruct item; set_solver.
        - rewrite lookup_insert_ne by done. intros ?%Hmin. set_solver. }
      destruct (min st !! Path item) as [v|] eqn:Hv'; [|done].
      destruct (decide (Reqs.Max reqs v (Version item) ≠ v)); [done|].
      intros ?%Hmin. set_solver.
    + intros ?%Hmin. set_solver.
  - intros k. rewrite dom_insert_L. unfold min_update. intros Hk Hvk.
    assert (Hcase : k = item ∨ (k ∈ dom (modGraph st))) by set_solver.
    destruct (decide (Version item ≠ none)) as [Hv|Hv].
    + assert (Hins : is_Some (<[Path item := Version item]> (min st) !! Path k)).
      { destruct (decide (Path k = Path item)) as [->|Hp].
        - rewrite lookup_insert_eq. eauto.
        - rewrite lookup_insert_ne by done. destruct Hcase as [->|?]; [done|]. auto. }
      destruct (min st !! Path item) as [v|] eqn:Hv'; [|done].
      destruct (decide (Reqs.Max reqs v (Version item) ≠ v)); [done|].
      destruct Hcase as [->|?]; [by rewrite Hv'|auto].
    + destruct Hcase as [->|?]; [done|auto].
  - rewrite orb_true_iff, Herr, dom_insert_L. split.
    + intros [(k & Hk & He)|He]; [exists k|exists item]; set_solver.
    + intros (k & [->%elem_of_singleton|Hk]%elem_of_union & He); eauto.
Qed.

Lemma Do_done sched fuel st :
  pending st = [] → Do reqs upgrade sched fuel st = Some st.
Proof. intros Hp. destruct fuel; simpl; by rewrite Hp. Qed.

Lemma Do_step sched fuel st :
  pending st ≠ [] →
  ∃ i item, pending st !! i = Some item ∧
    Do reqs upgrade sched (S fuel) st =
    Do reqs upgrade sched fuel (visit reqs upgrade item (dequeue i st)).
Proof.
  intros Hp. simpl. destruct (pending st) as [|first rest] eqn:E; [done|].
  set (i := sched (first :: rest) `mod` length (first :: rest)).
  exists i, (nth i (first :: rest) first). split; [|done].
  destruct (nth_lookup_or_length (first :: rest) i first) as [?|Hlen]; [done|].
  pose proof (Nat.mod_upper_bound (sched (first :: rest)) (length (first :: rest))).
  subst i. simpl in *. lia.
Qed.

Lemma Do_explored sched fuel st st' :
  explored st → Do reqs upgrade sched fuel st = Some st' →
  explored st' ∧ pending st' = [].
Proof.
  revert st. induction fuel as [|fuel IH]; intros st Hex.
  - simpl. destruct (pending st) eqn:E; [|done]. by intros [= <-].
  - destruct (decide (pending st = [])) as [Hp|Hp].
    + rewrite Do_done by done. by intros [= <-].
    + destruct (Do_step sched fuel st Hp) as (i & item & Hi & ->).
      apply IH. by apply explored_visit.
Qed.

(** When the queue is empty every reachable vertex has its node. *)
Lemma explored_complete st x :
  explored st → pending st = [] → reachable x → x ∈ dom (modGraph st).
Proof.
  intros Hex Hp. assert (Hall : ∀ y, y ∈ par.added (work st) → y ∈ dom (modGraph st)).
  { intros y Hy. destruct (ex_split _ Hex y Hy) as [?|Hy']; [done|].
    rewrite Hp in Hy'. by apply elem_of_nil in Hy'. }
  induction 1 as [|u r _ IH Hr].
  - apply Hall, (ex_target _ Hex).
  - eapply Hall, ex_edges; eauto.
Qed.
End Exploration.

(** ** Sorting by path *)

Definition path_lt (a b : module_Version) : Prop :=
  String_as_OT.lt (Path a) (Path b).

Lemma path_less_lt a b : path_less a b = true ↔ path_lt a b.
Proof.
  unfold path_less, path_lt, String_as_OT.lt.
  destruct (String_as_OT.compare (Path a) (Path b)); naive_solver.
Qed.

Lemma path_less_ge a b : path_less a b = false → Path a ≠ Path b → path_lt b a.
Proof.
  unfold path_less, path_lt. intros Hless Hne.
  destruct (String_as_OT.compare_spec (Path a) (Path b)) as [Heq|Hlt|Hgt]; done.
Qed.

Lemma path_lt_trans a b c : path_lt a b → path_lt b c → path_lt a c.
Proof. unfold path_lt. apply String_as_OT.lt_strorder. Qed.

Lemma path_lt_irrefl a b : path_lt a b → Path a ≠ Path b.
Proof.
  unfold path_lt. intros Hlt Heq. rewrite Heq in Hlt.
  by apply (StrictOrder_Irreflexive (R:=String_as_OT.lt)) in Hlt.
Qed.

Lemma sort_insert_perm x l : sort_insert x l ≡ₚ x :: l.
Proof.
  induction l as [|y l IH]; simpl; [done|].
  destruct (path_less y x); [|done]. rewrite IH. apply Permutation_swap.
Qed.

Lemma sort_Slice_perm l : sort_Slice l ≡ₚ l.
Proof.
  induction l as [|x l IH]; simpl; [done|].
  unfold sort_Slice in *. simpl. by rewrite sort_insert_perm, IH.
Qed.

Lemma sort_insert_sorted x l :
  StronglySorted path_lt l → (∀ y, y ∈ l → Path y ≠ Path x) →
  StronglySorted path_lt (sort_insert x l).
Proof.
  induction 1 as [|y l Hsorted IH Hall]; intros Hne; simpl.
  - repeat constructor.
  - destruct (path_less y x) eqn:Hless.
    + constructor.
      * apply IH. intros z Hz. apply Hne. by right.
      * apply Forall_forall. intros z Hz.
        rewrite sort_insert_perm in Hz. apply elem_of_cons in Hz as [->|Hz].
        -- by apply path_less_lt.
        -- rewrite Forall_forall in Hall. by apply Hall.
    + assert (Hxy : path_lt x y).
      { apply path_less_ge; [done|]. apply Hne. by left. }
      constructor; [by constructor|].
      constructor; [done|]. eapply Forall_impl; [exact Hall|].
      intros z Hz. by eapply path_lt_trans.
Qed.

Lemma sort_Slice_sorted l :
  NoDup (Path <$> l) → StronglySorted path_lt (sort_Slice l).
Proof.
  induction l as [|x l IH]; simpl; intros Hnd; [constructor|].
  apply NoDup_cons in Hnd as [Hx Hnd]. unfold sort_Slice in *; simpl.
  apply sort_insert_sorted; [by apply IH|].
  intros y Hy Heq. apply Hx. rewrite <- Heq.
  apply list_elem_of_fmap. exists y. split; [done|].
  fold (sort_Slice l) in Hy. by rewrite sort_Slice_perm in Hy.
Qed.

(** A list strictly sorted by path has no two entries with the same path. *)
Lemma sorted_paths_NoDup l : StronglySorted path_lt l → NoDup (Path <$> l).
Proof.
  induction 1 as [|x l _ IH Hall]; simpl; [constructor|].
  apply NoDup_cons. split; [|done].
  intros (y & Heq & Hy)%list_elem_of_fmap.
  rewrite Forall_forall in Hall. apply Hall in Hy.
  by apply path_lt_irrefl in Hy.
Qed.

(** ** The finalizer *)

Section FinalizeFacts.
Context (target : module_Version) (reqs : Reqs.t).
Context (G : gmap module_Version modGraphNode) (mn : gmap string string).

Definition entry_version (e : string * string) : module_Version := mkVersion e.1 e.2.

(** The requirement [r] passes the check of the inner loop. *)
Definition satisfied (r : module_Version) : Prop :=
  Version r = none ∨ Path r = Path target ∨
  Reqs.Max reqs (default "" (mn !! Path r)) (Version r) = default "" (mn !! Path r).

Lemma check_required_None l :
  check_required target reqs mn l = None ↔ ∀ r, r ∈ l → satisfied r.
Proof.
  unfold satisfied. induction l as [|r l IH]; simpl.
  - split; [|done]. by intros _ r ?%elem_of_nil.
  - destruct (decide (Version r = none)) as [Hn|Hn].
    + rewrite IH. split.
      * intros H r' [->|?]%elem_of_cons; auto.
      * intros H r' ?. apply H. by right.
    + destruct (decide (Path r ≠ Path target ∧ _)) as [[Hp Hm]|Hok].
      * split; [done|]. intros H. destruct (H r) as [?|[?|?]]; [by left|done..].
      * rewrite IH. split.
        -- intros H r' Hr'. apply elem_of_cons in Hr' as [Heq|?]; [subst r'|by auto].
           destruct (decide (Path r = Path target)); [by auto|].
           right; right. apply dec_stable. naive_solver.
        -- intros H r' ?. apply H. by right.
Qed.

Definition entries_ok (entries : list (string * string)) : Prop :=
  ∀ e, e ∈ entries →
    ∃ n, G !! entry_version e = Some n ∧ ∀ r, r ∈ node_required n → satisfied r.

Definition tail_of (entries : list (string * string)) : list module_Version :=
  entry_version <$> filter (λ e, e.1 ≠ Path target) entries.

Lemma collect_Return entries acc l :
  collect target reqs G mn entries acc = Return l ↔
  l = acc ++ tail_of entries ∧ entries_ok entries.
Proof.
  unfold tail_of, entries_ok. revert acc.
  induction entries as [|[p v] entries IH]; intros acc; simpl.
  - rewrite app_nil_r. split; [intros [= <-]|intros [-> _]; done].
    split; [done|]. by intros e ?%elem_of_nil.
  - rewrite filter_cons. simpl.
    destruct (G !! mkVersion p v) as [n|] eqn:Hn.
    + destruct (check_required target reqs mn (node_required n)) as [pn|] eqn:Hc.
      * split; [done|]. intros [_ H]. destruct (H (p, v)) as (n' & Hn' & Hs); [by left|].
        unfold entry_version in Hn'; simpl in Hn'. rewrite Hn in Hn'. injection Hn' as <-.
        apply (proj2 (check_required_None _)) in Hs. congruence.
      * rewrite IH. pose proof (proj1 (check_required_None _) Hc) as Hc'.
        destruct (decide (p ≠ Path target)); simpl; rewrite <- ?app_assoc; simpl.
        -- split.
           ++ intros [-> H]. split; [done|]. intros e [->|?]%elem_of_cons; eauto.
           ++ intros [-> H]. split; [done|]. intros e ?. apply H. by right.
        -- split.
           ++ intros [-> H]. split; [done|]. intros e [->|?]%elem_of_cons; eauto.
           ++ intros [-> H]. split; [done|]. intros e ?. apply H. by right.
    + split; [done|]. intros [_ H]. destruct (H (p, v)) as (n' & Hn' & _); [by left|].
      unfold entry_version in Hn'; simpl in Hn'. congruence.
Qed.

Lemma collect_not_Fail entries acc e :
  collect target reqs G mn entries acc ≠ Fail e.
Proof.
  revert acc. induction entries as [|[p v] entries IH]; intros acc; simpl; [done|].
  destruct (G !! mkVersion p v); [|done].
  destruct (check_required _ _ _ _); [done|]. apply IH.
Qed.

Lemma finalize_Return l :
  finalize target reqs G mn = Return l ↔
  default "" (mn !! Path target) = Version target ∧
  l = target :: sort_Slice (tail_of (map_to_list mn)) ∧
  entries_ok (map_to_list mn).
Proof.
  unfold finalize.
  destruct (decide (default "" (mn !! Path target) ≠ Version target)) as [Hne|Heq].
  - split; [done|]. by intros [? _].
  - apply dec_stable in Heq.
    destruct (collect target reqs G mn (map_to_list mn) [target]) as [built|e|p] eqn:Hc.
    + apply collect_Return in Hc as [-> Hok]. simpl. split.
      * by intros [= <-].
      * by intros (_ & -> & _).
    + by apply collect_not_Fail in Hc.
    + split; [done|]. intros (_ & _ & Hok).
      assert (collect target reqs G mn (map_to_list mn) [target]
              = Return ([target] ++ tail_of (map_to_list mn))) as Hr
        by (by apply collect_Return).
      congruence.
Qed.

Lemma finalize_not_Fail e : finalize target reqs G mn ≠ Fail e.
Proof.
  unfold finalize. destruct (decide _); [done|].
  destruct (collect target reqs G mn (map_to_list mn) [target]) as [built|e'|p] eqn:Hc;
    [by destruct built| |done].
  by apply collect_not_Fail in Hc.
Qed.

(** The finalizer either returns the list or panics. *)
Lemma finalize_cases :
  (∃ l, finalize target reqs G mn = Return l) ∨ (∃ p, finalize target reqs G mn = Panic p).
Proof.
  destruct (finalize target reqs G mn) as [l|e|p] eqn:E; eauto.
  by apply finalize_not_Fail in E.
Qed.

Lemma tail_of_elem m :
  m ∈ tail_of (map_to_list mn) ↔ mn !! Path m = Some (Version m) ∧ Path m ≠ Path target.
Proof.
  unfold tail_of. rewrite list_elem_of_fmap. split.
  - intros ([p v] & -> & [Hp He]%list_elem_of_filter). simpl in *.
    by apply elem_of_map_to_list in He.
  - intros [Hm Hp]. exists (Path m, Version m). split; [by destruct m|].
    apply list_elem_of_filter. split; [done|]. by apply elem_of_map_to_list.
Qed.

Lemma tail_of_NoDup : NoDup (Path <$> tail_of (map_to_list mn)).
Proof.
  unfold tail_of. rewrite <- list_fmap_compose.
  assert (Hext : Path ∘ entry_version = fst) by done. rewrite Hext.
  eapply sublist_NoDup; [apply (NoDup_fst_map_to_list mn)|].
  apply fmap_sublist, sublist_filter.
Qed.
End FinalizeFacts.

(** ** The shape of a build list *)

(** The per-path maximum at the end of the exploration. *)
Definition selected_by (sched : list module_Version → nat) (fuel : nat)
    (target : module_Version) (reqs : Reqs.t) (upgrade : option upgrade_fn)
    : option (gmap string string) :=
  min <$> Do reqs upgrade sched fuel (explore_init target).

Lemma buildList_Return sched fuel target reqs upgrade l :
  buildList sched fuel target reqs upgrade = Some (Return l) →
  ∃ st, Do reqs upgrade sched fuel (explore_init target) = Some st ∧
        finalize target reqs (modGraph st) (min st) = Return l.
Proof.
  unfold buildList, conclude. destruct (Do _ _ _ _ _) as [st|]; simpl; [|done].
  destruct (haveErr st).
  - destruct (error_path _ _ _ _ _) as [[b| |]|]; simpl; try done.
    intros [= ?]. eauto.
  - intros [= ?]. eauto.
Qed.

(** [l] is the target followed by one entry per selected path other than the
    target's, in strictly ascending order of path, and no entry has the
    version "none". *)
Definition build_list_shape (target : module_Version) (selected : gmap string string)
    (l : list module_Version) : Prop :=
  ∃ tail, l = target :: tail ∧
    (∀ m, m ∈ tail ↔ selected !! Path m = Some (Version m) ∧ Path m ≠ Path target) ∧
    StronglySorted path_lt tail ∧
    NoDup (Path <$> tail) ∧
    ∀ m, m ∈ l → Version m ≠ none.

Lemma buildList_shape_of sched fuel target reqs upgrade l :
  buildList sched fuel target reqs upgrade = Some (Return l) →
  ∃ selected, selected_by sched fuel target reqs upgrade = Some selected ∧
              build_list_shape target selected l.
Proof.
  intros (st & Hdo & Hfin)%buildList_Return.
  exists (min st). split; [unfold selected_by; by rewrite Hdo|].
  apply Do_explored with (target := target) in Hdo as [Hex _]; [|apply explored_init].
  apply finalize_Return in Hfin as (Htv & -> & _).
  exists (sort_Slice (tail_of target (map_to_list (min st)))).
  split; [done|]. split_and!.
  - intros m. by rewrite sort_Slice_perm, tail_of_elem.
  - apply sort_Slice_sorted, tail_of_NoDup.
  - apply sorted_paths_NoDup, sort_Slice_sorted, tail_of_NoDup.
  - intros m [->|Hm]%elem_of_cons.
    + rewrite <- Htv. destruct (min st !! Path target) as [s|] eqn:Hs; [|done].
      by apply (ex_min _ _ _ _ Hex) in Hs as [? _].
    + rewrite sort_Slice_perm, tail_of_elem in Hm. destruct Hm as [Hm _].
      by apply (ex_min _ _ _ _ Hex) in Hm as [? _].
Qed.

Lemma Upgrade_buildList reqs sched fuel target upgrade l :
  Upgrade reqs sched fuel target upgrade = Some (Return l) →
  ∃ list upgradeTo,
    buildList sched fuel target (override target list reqs)
      (Some (upgrade_to_fn upgradeTo)) = Some (Return l).
Proof.
  unfold Upgrade. destruct (Reqs.Required reqs target) as [list|e]; [|done].
  destruct (foldl _ _ _) as [list' upgradeTo]. eauto.
Qed.

(** C2: every list returned by [buildList], and so by [BuildList],
    [UpgradeAll] and [Upgrade], starts with the target; its other entries are
    exactly the selected versions of the paths other than the target's, one
    per path, in strictly ascending order of path; and no entry has the
    version "none". *)
Theorem build_list_is_target_then_sorted_selection sched fuel target reqs :
  (∀ upgrade l,
     buildList sched fuel target reqs upgrade = Some (Return l) →
     ∃ selected, selected_by sched fuel target reqs upgrade = Some selected ∧
                 build_list_shape target selected l) ∧
  (∀ l,
     BuildList sched fuel target reqs = Some (Return l) →
     ∃ selected, selected_by sched fuel target reqs None = Some selected ∧
                 build_list_shape target selected l) ∧
  (∀ l,
     UpgradeAll sched fuel target reqs = Some (Return l) →
     ∃ selected,
       selected_by sched fuel target reqs (Some (upgradeAll_fn target reqs))
         = Some selected ∧
       build_list_shape target selected l) ∧
  (∀ upgrade l,
     Upgrade reqs sched fuel target upgrade = Some (Return l) →
     ∃ list upgradeTo selected,
       selected_by sched fuel target (override target list reqs)
         (Some (upgrade_to_fn upgradeTo)) = Some selected ∧
       build_list_shape target selected l).
Proof.
  split_and!.
  - intros upgrade l. apply buildList_shape_of.
  - intros l. apply buildList_shape_of.
  - intros l. apply buildList_shape_of.
  - intros upgrade l (list & upgradeTo & H)%Upgrade_buildList.
    exists list, upgradeTo. by apply buildList_shape_of.
Qed.

(** ** The per-path maximum under an ordering *)

(** [Max] is the maximum of a total order on version strings: it returns one
    of its arguments and is commutative and associative. *)
Record MaxOrder (Max : string → string → string) : Prop := {
  max_select : ∀ a b, Max a b = a ∨ Max a b = b;
  max_comm : ∀ a b, Max a b = Max b a;
  max_assoc : ∀ a b c, Max a (Max b c) = Max (Max a b) c
}.

Lemma max_idem Max a : MaxOrder Max → Max a a = a.
Proof. intros H. by destruct (max_select _ H a a). Qed.

(** [a ≤ b ≤ c] gives [a ≤ c], written with [Max]. *)
Lemma max_le_trans Max a b c :
  MaxOrder Max → Max b a = b → Max c b = c → Max c a = c.
Proof. intros H Hab Hbc. by rewrite <- Hbc, <- (max_assoc _ H), Hab. Qed.

Section SelectedMaximum.
Context (reqs : Reqs.t) (upgrade : option upgrade_fn) (target : module_Version).
Context (Hmax : MaxOrder (Reqs.Max reqs)).

(** The selected version of a path is at least every version of that path
    that has been visited. *)
Definition max_inv (st : explorer) : Prop :=
  ∀ k s, k ∈ dom (modGraph st) → Version k ≠ none →
         min st !! Path k = Some s → Reqs.Max reqs s (Version k) = s.

Lemma max_inv_visit st i item :
  explored reqs upgrade target st → max_inv st → pending st !! i = Some item →
  max_inv (visit reqs upgrade item (dequeue i st)).
Proof.
  intros Hex Hinv Hi. rewrite visit_eq. intros k s; simpl.
  rewrite dom_insert_L. intros Hk Hvk.
  assert (Hcase : k = item ∨ k ∈ dom (modGraph st)) by set_solver.
  unfold min_update. destruct (decide (Version item ≠ none)) as [Hv|Hv].
  - destruct (min st !! Path item) as [v|] eqn:Hcur.
    + destruct (decide (Reqs.Max reqs v (Version item) ≠ v)) as [Hup|Hkeep].
      * destruct (decide (Path k = Path item)) as [Hp|Hp].
        -- rewrite Hp, lookup_insert_eq. intros [= <-].
           destruct Hcase as [->|Hold]; [by apply max_idem|].
           assert (Reqs.Max reqs v (Version k) = v) as Hvk'
             by (apply Hinv; [done..|by rewrite Hp]).
           assert (Reqs.Max reqs v (Version item) = Version item) as Hvi
             by (destruct (max_select _ Hmax v (Version item)); done).
           eapply max_le_trans; [done|exact Hvk'|].
           by rewrite (max_comm _ Hmax).
        -- rewrite lookup_insert_ne by done.
           destruct Hcase as [->|Hold]; [done|]. by apply Hinv.
      * apply dec_stable in Hkeep. destruct Hcase as [->|Hold].
        -- rewrite Hcur. by intros [= <-].
        -- by apply Hinv.
    + destruct (decide (Path k = Path item)) as [Hp|Hp].
      * rewrite Hp, lookup_insert_eq. intros [= <-].
        destruct Hcase as [->|Hold]; [by apply max_idem|].
        destruct (ex_min_def _ _ _ _ Hex k Hold Hvk) as [s Hs]. congruence.
      * rewrite lookup_insert_ne by done.
        destruct Hcase as [->|Hold]; [done|]. by apply Hinv.
  - destruct Hcase as [->|Hold]; [done|]. by apply Hinv.
Qed.

Lemma Do_max_inv sched fuel st st' :
  explored reqs upgrade target st → max_inv st →
  Do reqs upgrade sched fuel st = Some st' → max_inv st'.
Proof.
  revert st. induction fuel as [|fuel IH]; intros st Hex Hinv.
  - simpl. destruct (pending st) eqn:E; [|done]. by intros [= <-].
  - destruct (decide (pending st = [])) as [Hp|Hp].
    + rewrite Do_done by done. by intros [= <-].
    + destruct (Do_step reqs upgrade sched fuel st Hp) as (i & item & Hi & ->).
      apply IH; [by apply explored_visit|by apply max_inv_visit].
Qed.

Lemma max_inv_init : max_inv (explore_init target).
Proof. intros k s. unfold explore_init; simpl. rewrite dom_empty_L. set_solver. Qed.

(** At the end of the exploration the selected version of a path is the
    greatest version of that path among the reachable vertices. *)
Lemma selected_greatest sched fuel st x s :
  Do reqs upgrade sched fuel (explore_init target) = Some st →
  reachable reqs upgrade target x → Version x ≠ none →
  min st !! Path x = Some s → Reqs.Max reqs s (Version x) = s.
Proof.
  intros Hdo Hx Hv Hs.
  pose proof (Do_max_inv _ _ _ _ (explored_init _ _ _) max_inv_init Hdo) as Hinv.
  apply Do_explored with (target := target) in Hdo as [Hex Hp]; [|apply explored_init].
  apply Hinv; [|done..]. by eapply explored_complete.
Qed.
End SelectedMaximum.

(** ** The test provider compares versions by a total order *)

Section StrMax.
Import Scenarios.

Lemma plain_max_cases a b :
  (String_as_OT.lt a b ∧ plain_max a b = b) ∨
  (a = b ∧ plain_max a b = a) ∨
  (String_as_OT.lt b a ∧ plain_max a b = a).
Proof.
  unfold plain_max.
  destruct (String_as_OT.compare_spec a b) as [Heq|Hlt|Hgt]; auto.
Qed.

Lemma str_lt_irrefl a : ¬ String_as_OT.lt a a.
Proof. apply (StrictOrder_Irreflexive (R:=String_as_OT.lt)). Qed.

Lemma str_lt_trans a b c :
  String_as_OT.lt a b → String_as_OT.lt b c → String_as_OT.lt a c.
Proof. apply (StrictOrder_Transitive (R:=String_as_OT.lt)). Qed.

Lemma str_lt_asym a b : String_as_OT.lt a b → String_as_OT.lt b a → False.
Proof. intros H1 H2. exact (str_lt_irrefl a (str_lt_trans _ _ _ H1 H2)). Qed.

Ltac plain_max_split :=
  repeat match goal with
         | |- context [plain_max ?x ?y] =>
             let E := fresh "E" in
             destruct (plain_max_cases x y) as [[? E]|[[? E]|[? E]]];
             rewrite E in *; clear E; subst
         | _ : context [plain_max ?x ?y] |- _ =>
             let E := fresh "E" in
             destruct (plain_max_cases x y) as [[? E]|[[? E]|[? E]]];
             rewrite E in *; clear E; subst
         end.

Lemma plain_max_order : MaxOrder plain_max.
Proof.
  split.
  - intros a b. plain_max_split; auto.
  - intros a b. plain_max_split; try done; exfalso; eauto using str_lt_asym.
  - intros a b c. plain_max_split; try done; exfalso;
      eauto using str_lt_asym, str_lt_irrefl, str_lt_trans.
Qed.

Lemma str_max_order : MaxOrder str_max.
Proof.
  pose proof plain_max_order as [Hs Hc Ha].
  split.
  - intros a b. unfold str_max. repeat case_decide; auto.
  - intros a b. unfold str_max. repeat case_decide; subst; done.
  - intros a b c. unfold str_max.
    destruct (Hs a b) as [Eab|Eab]; destruct (Hs b c) as [Ebc|Ebc];
      repeat case_decide; subst; try congruence; apply Ha.
Qed.

(** The provider contract of [Max] for the main module, whose version is
    empty, and for "none". *)
Lemma str_max_none v : str_max v none = v.
Proof. unfold str_max. repeat case_decide; subst; done. Qed.

Lemma str_max_main v : str_max "" v = "".
Proof. done. Qed.
End StrMax.

(** ** C1: the selected version is the maximum over the reachable edges *)

(** [u → r] is an edge of the requirement graph that lies in the subgraph
    reachable from the target. *)
Definition required_edge (reqs : Reqs.t) (target u r : module_Version) : Prop :=
  reachable reqs None target u ∧ Version u ≠ none ∧
  ∃ required, Reqs.Required reqs u = Ok required ∧ r ∈ required.

Lemma out_edges_required reqs u r :
  r ∈ out_edges reqs None u ↔
  Version u ≠ none ∧ ∃ required, Reqs.Required reqs u = Ok required ∧ r ∈ required.
Proof.
  unfold out_edges, upgrade_edge; simpl.
  destruct (decide (Version u ≠ none)) as [Hv|Hv].
  - destruct (Reqs.Required reqs u) as [required|e].
    + rewrite app_nil_r. naive_solver.
    + split; [by intros ?%elem_of_nil|]. by intros (_ & ? & [=] & _).
  - split; [by intros ?%elem_of_nil|]. by intros [? _].
Qed.

Lemma required_edge_reachable reqs target u r :
  required_edge reqs target u r → reachable reqs None target r.
Proof.
  intros (Hu & Hv & Hr). eapply reachable_edge; [done|]. by apply out_edges_required.
Qed.

(** C1: for a provider whose [Max] is the maximum of a total order, and
    every schedule of the workers, each entry of the list returned by
    [BuildList] other than the target's path carries a version that is not
    "none", is the head of an edge of the reachable subgraph, and is the
    maximum of the versions at the head of all such edges with its path.
    The requirement graph need not be acyclic for this. *)
Theorem selected_version_is_maximum_of_reachable_edges
    sched fuel target reqs l m :
  MaxOrder (Reqs.Max reqs) →
  BuildList sched fuel target reqs = Some (Return l) →
  m ∈ l → Path m ≠ Path target →
  Version m ≠ none ∧
  (∃ u, required_edge reqs target u m) ∧
  ∀ u v, required_edge reqs target u (mkVersion (Path m) v) → v ≠ none →
         Reqs.Max reqs (Version m) v = Version m.
Proof.
  intros Hmax Hbuild Hm Hp.
  destruct (buildList_shape_of _ _ _ _ _ _ Hbuild)
    as (selected & Hsel & tail & -> & Htail & _ & _ & Hnone).
  apply buildList_Return in Hbuild as (st & Hdo & _).
  unfold selected_by in Hsel. rewrite Hdo in Hsel. injection Hsel as <-.
  pose proof (Do_explored _ _ _ _ _ _ _ (explored_init _ _ _) Hdo) as [Hex Hpend].
  assert (Hsel : min st !! Path m = Some (Version m)).
  { apply elem_of_cons in Hm as [->|Hm]; [done|]. by apply Htail. }
  split_and!.
  - by apply Hnone.
  - apply (ex_min _ _ _ _ Hex) in Hsel as [_ Hdom].
    assert (Hreach : reachable reqs None target m).
    { apply (ex_reach _ _ _ _ Hex), (ex_done _ _ _ _ Hex). by destruct m. }
    destruct Hreach as [|u r Hu Hr]; [done|].
    exists u. apply out_edges_required in Hr as [? ?]. by split.
  - intros u v Hedge Hv.
    apply required_edge_reachable in Hedge.
    by eapply (selected_greatest reqs None target Hmax) in Hedge.
Qed.

Lemma selected_version_is_maximum_witness :
  let reqs := Scenarios.provider Scenarios.S2 in
  let m := Scenarios.V "C" "2" in
  Version m ≠ none ∧
  (∃ u, required_edge reqs Scenarios.root u m) ∧
  ∀ u v, required_edge reqs Scenarios.root u (mkVersion (Path m) v) → v ≠ none →
         Reqs.Max reqs (Version m) v = Version m.
Proof.
  apply (selected_version_is_maximum_of_reachable_edges
           Scenarios.fifo 10 Scenarios.root (Scenarios.provider Scenarios.S2)
           [Scenarios.V "A" ""; Scenarios.V "B" "1"; Scenarios.V "C" "2"]).
  - exact str_max_order.
  - vm_compute. reflexivity.
  - set_solver.
  - vm_compute. discriminate.
Defined.

(** ** C4: the two aborts of the finalizer *)

Lemma node_of_required_out_edges reqs upgrade k r :
  r ∈ node_required (node_of reqs upgrade k) → r ∈ out_edges reqs upgrade k.
Proof.
  unfold node_of, out_edges, with_upgrade; simpl.
  destruct (decide (Version k ≠ none)).
  - destruct (Reqs.Required reqs k) as [required|e]; simpl; [|done].
    destruct (upgrade_of upgrade k) as [[u|]|e]; simpl; set_solver.
  - destruct (upgrade_of upgrade k) as [[u|]|e]; simpl; by intros ?%elem_of_nil.
Qed.

(** The provider contract for [Max], for the target at hand. *)
Record MaxContract (Max : string → string → string) (target : module_Version) : Prop := {
  contract_order : MaxOrder Max;
  contract_none : ∀ v, Max v none = v;
  contract_target : ∀ v, Max (Version target) v = Version target
}.

Lemma contract_target_not_none Max target :
  MaxContract Max target → Version target ≠ none.
Proof.
  intros [Ho Hn Ht] Heq.
  pose proof (Hn "") as H1. rewrite (max_comm _ Ho), <- Heq, Ht, Heq in H1. done.
Qed.

Lemma finalize_contract sched fuel target reqs upgrade st :
  MaxContract (Reqs.Max reqs) target →
  Do reqs upgrade sched fuel (explore_init target) = Some st →
  ∃ l, finalize target reqs (modGraph st) (min st) = Return l.
Proof.
  intros Hc Hdo. pose proof (contract_order _ _ Hc) as Hmax.
  pose proof (Do_max_inv _ _ target Hmax _ _ _ _ (explored_init _ _ _)
                (max_inv_init _ _) Hdo) as Hinv.
  pose proof (Do_explored _ _ _ _ _ _ _ (explored_init _ _ _) Hdo) as [Hex Hpend].
  assert (Hall : ∀ y, y ∈ par.added (work st) → y ∈ dom (modGraph st)).
  { intros y Hy. destruct (ex_split _ _ _ _ Hex y Hy) as [?|Hy']; [done|].
    rewrite Hpend in Hy'. by apply elem_of_nil in Hy'. }
  eexists. apply finalize_Return. split_and!; [|done|].
  - assert (Ht : target ∈ dom (modGraph st)) by apply Hall, (ex_target _ _ _ _ Hex).
    pose proof (contract_target_not_none _ _ Hc) as Hv.
    destruct (ex_min_def _ _ _ _ Hex _ Ht Hv) as [s Hs]. rewrite Hs; simpl.
    pose proof (Hinv _ _ Ht Hv Hs) as Hle.
    rewrite (max_comm _ Hmax), (contract_target _ _ Hc) in Hle. done.
  - intros [p v] Hpv%elem_of_map_to_list.
    destruct (ex_min _ _ _ _ Hex _ _ Hpv) as [_ [n Hn]%elem_of_dom].
    exists n. split; [done|]. intros r Hr. unfold satisfied.
    destruct (decide (Version r = none)) as [|Hvr]; [by left|]. right; right.
    rewrite (ex_node _ _ _ _ Hex _ _ Hn) in Hr.
    apply node_of_required_out_edges in Hr.
    assert (Hdom : r ∈ dom (modGraph st)).
    { eapply Hall, (ex_edges _ _ _ _ Hex); [|done]. by apply elem_of_dom_2 in Hn. }
    destruct (ex_min_def _ _ _ _ Hex _ Hdom Hvr) as [s Hs]. rewrite Hs; simpl.
    by apply Hinv.
Qed.

(** C4, as the code has it: after any exploration, the finalizer panics when
    the version selected for the target's path is not the target's version,
    and when a requirement [r] of a selected version, with a version other
    than "none" and a path other than the target's, is not covered by the
    version selected for its path; it never returns an error value; and when
    [Max] is the maximum of a total order that satisfies the provider
    contract the finalizer returns a list. *)
Theorem finalizer_aborts_exactly_on_contract_breach
    sched fuel target reqs upgrade st :
  Do reqs upgrade sched fuel (explore_init target) = Some st →
  let result := finalize target reqs (modGraph st) (min st) in
  let selected p := default "" (min st !! p) in
  (selected (Path target) ≠ Version target → ∃ p, result = Panic p) ∧
  (∀ path vers n r,
     min st !! path = Some vers → modGraph st !! mkVersion path vers = Some n →
     r ∈ node_required n → Version r ≠ none → Path r ≠ Path target →
     Reqs.Max reqs (selected (Path r)) (Version r) ≠ selected (Path r) →
     ∃ p, result = Panic p) ∧
  (∀ e, result ≠ Fail e) ∧
  (haveErr st = false →
   buildList sched fuel target reqs upgrade = Some result) ∧
  (MaxContract (Reqs.Max reqs) target → ∃ l, result = Return l).
Proof.
  intros Hdo result selected. subst result selected. split_and!.
  - intros Hne.
    destruct (finalize_cases target reqs (modGraph st) (min st)) as [[l Hl]|?]; [|done].
    apply finalize_Return in Hl as [? _]. done.
  - intros path vers n r Hsel Hn Hr Hv Hp Hbad.
    destruct (finalize_cases target reqs (modGraph st) (min st)) as [[l Hl]|?]; [|done].
    apply finalize_Return in Hl as (_ & _ & Hok).
    destruct (Hok (path, vers)) as (n' & Hn' & Hsat); [by apply elem_of_map_to_list|].
    unfold entry_version in Hn'; simpl in Hn'. rewrite Hn in Hn'. injection Hn' as <-.
    destruct (Hsat r Hr) as [?|[?|?]]; done.
  - apply finalize_not_Fail.
  - intros Herr. unfold buildList, conclude. rewrite Hdo; simpl. by rewrite Herr.
  - intros Hc. by eapply finalize_contract.
Qed.

Lemma finalizer_aborts_witness :
  let target := Scenarios.root in
  let reqs := Scenarios.provider Scenarios.S2 in
  ∃ st, Do reqs None Scenarios.fifo 10 (explore_init target) = Some st ∧
        (∀ e, finalize target reqs (modGraph st) (min st) ≠ Fail e) ∧
        ∃ l, finalize target reqs (modGraph st) (min st) = Return l.
Proof.
  intros target reqs.
  destruct (Do reqs None Scenarios.fifo 10 (explore_init target)) as [st|] eqn:Hdo;
    [|by vm_compute in Hdo].
  exists st. split; [done|].
  destruct (finalizer_aborts_exactly_on_contract_breach
              Scenarios.fifo 10 target reqs None st Hdo) as (_ & _ & Hfail & _ & Hret).
  split; [exact Hfail|]. apply Hret.
  split; [exact str_max_order|exact str_max_none|exact str_max_main].
Defined.

(** The claim as stated fails twice.  First, the two equations of the
    contract do not exclude the second abort: [last_max] satisfies both and
    the build list of the main module that requires [B@1] and [B@2] panics.
    Secondly, a requirement on the target's own path is never checked: with
    [odd_max], the main module that requires itself has a requirement that
    its selected version does not cover, and the list is returned. *)
Lemma finalizer_claim_counterexample :
  ((∀ v, Scenarios.last_max v none = v) ∧
   (∀ v, Scenarios.last_max (Version Scenarios.root) v = Version Scenarios.root) ∧
   BuildList Scenarios.fifo 10 Scenarios.root
     (Scenarios.provider_max Scenarios.two_versions Scenarios.last_max)
   = Some (Panic (MistakeUnsatisfied "2" (Scenarios.V "B" "1")))) ∧
  (let reqs := Scenarios.provider_max Scenarios.self_loop Scenarios.odd_max in
   let r := Scenarios.root in
   ∃ st n,
     Do reqs None Scenarios.fifo 10 (explore_init Scenarios.root) = Some st ∧
     min st !! Path Scenarios.root = Some (Version Scenarios.root) ∧
     modGraph st !! Scenarios.root = Some n ∧
     r ∈ node_required n ∧ Version r ≠ none ∧
     Reqs.Max reqs (default "" (min st !! Path r)) (Version r)
       ≠ default "" (min st !! Path r) ∧
     BuildList Scenarios.fifo 10 Scenarios.root reqs = Some (Return [Scenarios.root])).
Proof.
  split.
  - split_and!.
    + intros v. unfold Scenarios.last_max. repeat case_decide; done.
    + done.
    + by vm_compute.
  - intros reqs r.
    destruct (Do reqs None Scenarios.fifo 10 (explore_init Scenarios.root))
      as [st|] eqn:Hdo; [|by vm_compute in Hdo].
    vm_compute in Hdo. injection Hdo as <-.
    eexists _, _. split; [reflexivity|]. split_and!; try by vm_compute.
    simpl. apply list_elem_of_singleton. reflexivity.
Qed.

Lemma build_list_shape_witness :
  ∃ selected,
    selected_by Scenarios.fifo 10 Scenarios.root (Scenarios.provider Scenarios.S2) None
      = Some selected ∧
    build_list_shape Scenarios.root selected
      [Scenarios.V "A" ""; Scenarios.V "B" "1"; Scenarios.V "C" "2"].
Proof.
  apply (proj1 (build_list_is_target_then_sorted_selection
                  Scenarios.fifo 10 Scenarios.root (Scenarios.provider Scenarios.S2))).
  vm_compute. reflexivity.
Defined.


(** ** More fuel does not change a result *)

Lemma Do_mono reqs upgrade sched fuel fuel' st st' :
  Do reqs upgrade sched fuel st = Some st' → fuel ≤ fuel' →
  Do reqs upgrade sched fuel' st = Some st'.
Proof.
  revert fuel' st. induction fuel as [|fuel IH]; intros fuel' st.
  - simpl. destruct (pending st) eqn:E; [|done]. intros [= <-] _. by apply Do_done.
  - intros Hdo Hle. destruct fuel' as [|fuel']; [lia|].
    simpl in *. destruct (pending st); [done|]. apply IH; [done|lia].
Qed.

Lemma walk_back_mono fuel fuel' neededBy n prev errPath pathUpgrade r :
  walk_back fuel neededBy n prev errPath pathUpgrade = Some r → fuel ≤ fuel' →
  walk_back fuel' neededBy n prev errPath pathUpgrade = Some r.
Proof.
  revert fuel' n prev errPath pathUpgrade.
  induction fuel as [|fuel IH]; intros fuel' n prev errPath pathUpgrade.
  - simpl. destruct n; [done|]. intros [= <-] _. by destruct fuel'.
  - intros Hw Hle. destruct fuel' as [|fuel']; [lia|].
    simpl in *. destruct n; [|done]. apply IH; [done|lia].
Qed.

Lemma error_path_mono G budget budget' fuel fuel' neededBy q r :
  error_path G budget fuel neededBy q = Some r → budget ≤ budget' → fuel ≤ fuel' →
  error_path G budget' fuel' neededBy q = Some r.
Proof.
  intros Hr Hb. revert fuel' neededBy q Hr.
  induction fuel as [|fuel IH]; intros fuel' neededBy q Hr Hle.
  - destruct q as [|[node|] q]; simpl in *;
      [by destruct fuel'|..|by destruct fuel'].
    destruct (node_err node) as [e|] eqn:He; [|done].
    destruct (walk_back budget _ _ _ _ _) as [[errPath pathUpgrade]|] eqn:Hw; [|done].
    apply walk_back_mono with (fuel' := budget') in Hw; [|done].
    destruct fuel'; simpl; by rewrite He, Hw.
  - destruct fuel' as [|fuel']; [lia|].
    destruct q as [|[node|] q]; simpl in *; [done| |done].
    destruct (node_err node) as [e|] eqn:He.
    + destruct (walk_back budget _ _ _ _ _) as [[errPath pathUpgrade]|] eqn:Hw; [|done].
      apply walk_back_mono with (fuel' := budget') in Hw; [|done]. by rewrite Hw.
    + destruct (foldl _ _ _) as [neededBy' q']. apply IH; [done|lia].
Qed.

Lemma conclude_mono fuel fuel' target reqs st r :
  conclude fuel target reqs st = Some r → fuel ≤ fuel' →
  conclude fuel' target reqs st = Some r.
Proof.
  unfold conclude. destruct (haveErr st); [|done].
  destruct (error_path _ fuel fuel _ _) as [found|] eqn:He; [|done].
  intros Hr Hle. by rewrite (error_path_mono _ _ _ _ _ _ _ _ He Hle Hle).
Qed.

Lemma buildList_mono sched fuel fuel' target reqs upgrade r :
  buildList sched fuel target reqs upgrade = Some r → fuel ≤ fuel' →
  buildList sched fuel' target reqs upgrade = Some r.
Proof.
  unfold buildList.
  destruct (Do reqs upgrade sched fuel _) as [st|] eqn:Hdo; [|done]. simpl.
  intros Hr Hle. rewrite (Do_mono _ _ _ _ _ _ _ Hdo Hle). simpl.
  by eapply conclude_mono.
Qed.

(** ** Running the exploration under every schedule *)

Section AllSchedules.
Context (reqs : Reqs.t) (upgrade : option upgrade_fn).

(** The states in which [Do] can end, for every choice of the item taken at
    each step. *)
Fixpoint Do_all (fuel : nat) (st : explorer) : list (option explorer) :=
  match pending st with
  | [] => [Some st]
  | first :: _ =>
      match fuel with
      | O => [None]
      | S fuel' =>
          i ← seq 0 (length (pending st));
          Do_all fuel' (visit reqs upgrade (nth i (pending st) first) (dequeue i st))
      end
  end.

Lemma Do_in_all sched fuel st : Do reqs upgrade sched fuel st ∈ Do_all fuel st.
Proof.
  revert st. induction fuel as [|fuel IH]; intros st; simpl.
  - destruct (pending st); apply list_elem_of_singleton; done.
  - destruct (pending st) as [|first rest] eqn:E; [by apply list_elem_of_singleton|].
    apply list_elem_of_bind. eexists. split; [apply IH|].
    apply elem_of_seq. split; [lia|].
    pose proof (Nat.mod_upper_bound (sched (first :: rest)) (length (first :: rest))).
    simpl in *. lia.
Qed.

(** The results [buildList] can have, for every schedule. *)
Definition buildList_all (fuel : nat) (target : module_Version)
    : list (option (outcome (list module_Version))) :=
  (λ o, o ≫= conclude fuel target reqs) <$> Do_all fuel (explore_init target).

Lemma buildList_in_all sched fuel target :
  buildList sched fuel target reqs upgrade ∈ buildList_all fuel target.
Proof.
  unfold buildList, buildList_all.
  apply (list_elem_of_fmap_2 (λ o, o ≫= conclude fuel target reqs)), Do_in_all.
Qed.
End AllSchedules.

(** If every schedule with fuel [fuel] gives [r], so does every schedule
    with at least that fuel. *)
Lemma buildList_all_schedules sched fuel fuel' target reqs upgrade r :
  Forall (λ o, o = Some r) (buildList_all reqs upgrade fuel target) →
  fuel ≤ fuel' →
  buildList sched fuel' target reqs upgrade = Some r.
Proof.
  intros Hall Hle. eapply buildList_mono; [|done].
  rewrite Forall_forall in Hall. apply Hall, buildList_in_all.
Qed.

(** ** C8: a vertex with version "none" *)

(** C8: visiting a vertex whose version is "none" leaves the per-path
    maximum as it is and does not ask the provider for its requirements: the
    result does not depend on [Required], the node gets no requirements, and
    without an upgrade function only the node is stored.  On scenario S3 every
    schedule returns [root, B@2, C@1]. *)
Theorem none_vertex_is_not_selected_nor_fetched :
  (∀ reqs upgrade m st,
     Version m = none →
     min (visit reqs upgrade m st) = min st ∧
     node_required (node_of reqs upgrade m) = [] ∧
     modGraph (visit reqs upgrade m st) !! m = Some (node_of reqs upgrade m) ∧
     (∀ required',
        visit (Reqs.Build required' (Reqs.Max reqs) (Reqs.Upgrade reqs)
                 (Reqs.Previous reqs)) upgrade m st
        = visit reqs upgrade m st) ∧
     visit reqs None m st
     = mkExplorer (work st) (<[m := mkNode m [] zero_Version None]> (modGraph st))
         (min st) (haveErr st)) ∧
  (∀ sched fuel,
     4 ≤ fuel →
     BuildList sched fuel (Scenarios.V "R" "") (Scenarios.provider Scenarios.S3)
     = Some (Return [Scenarios.V "R" ""; Scenarios.V "B" "2"; Scenarios.V "C" "1"])).
Proof.
  split.
  - intros reqs upgrade m st Hv. split_and!.
    + rewrite visit_eq; simpl. unfold min_update. by rewrite decide_False by auto.
    + unfold node_of, with_upgrade. rewrite decide_False by auto.
      by destruct (upgrade_of upgrade _) as [[?|]|?].
    + rewrite visit_eq; simpl. by rewrite lookup_insert_eq.
    + intros required'. unfold visit. by rewrite !decide_False by auto.
    + unfold visit. rewrite decide_False by auto. simpl. unfold register.
      by rewrite decide_False by auto.
  - intros sched fuel Hfuel. unfold BuildList.
    apply buildList_all_schedules with (fuel := 4); [|done].
    vm_compute. repeat constructor.
Qed.

Lemma none_vertex_witness :
  let m := Scenarios.V "B" "none" in
  let reqs := Scenarios.provider Scenarios.S3 in
  let st := explore_init (Scenarios.V "R" "") in
  min (visit reqs None m st) = min st ∧ node_required (node_of reqs None m) = [].
Proof.
  intros m reqs st.
  destruct (proj1 none_vertex_is_not_selected_nor_fetched reqs None m st)
    as (H1 & H2 & _); [reflexivity|].
  split; [exact H1|exact H2].
Defined.

(** ** C6: [UpgradeAll] leaves the target alone *)

Lemma visit_upgrade_ext up1 up2 node st :
  (∀ m, up1 m = up2 m) →
  visit_upgrade (Some up1) node st = visit_upgrade (Some up2) node st.
Proof. intros Hext. unfold visit_upgrade. by rewrite Hext. Qed.

Lemma visit_ext reqs up1 up2 m st :
  (∀ m, up1 m = up2 m) →
  visit reqs (Some up1) m st = visit reqs (Some up2) m st.
Proof.
  intros Hext. unfold visit.
  destruct (decide _); [destruct (Reqs.Required reqs m)|]; try done;
    by apply visit_upgrade_ext.
Qed.

Lemma Do_ext reqs up1 up2 sched fuel st :
  (∀ m, up1 m = up2 m) →
  Do reqs (Some up1) sched fuel st = Do reqs (Some up2) sched fuel st.
Proof.
  intros Hext. revert st. induction fuel as [|fuel IH]; intros st; simpl; [done|].
  destruct (pending st); [done|]. by rewrite (visit_ext _ _ _ _ _ Hext), IH.
Qed.

Lemma buildList_ext sched fuel target reqs up1 up2 :
  (∀ m, up1 m = up2 m) →
  buildList sched fuel target reqs (Some up1) = buildList sched fuel target reqs (Some up2).
Proof. intros Hext. unfold buildList. by rewrite (Do_ext _ _ _ _ _ _ Hext). Qed.

(** [buildList] uses the provider through [Required] and [Max] only. *)
Lemma buildList_provider sched fuel target required max up1 prev1 up2 prev2 upgrade :
  buildList sched fuel target (Reqs.Build required max up1 prev1) upgrade
  = buildList sched fuel target (Reqs.Build required max up2 prev2) upgrade.
Proof. reflexivity. Qed.

(** A returned build list selects the target's own version for its path. *)
Lemma buildList_selects_target sched fuel target reqs upgrade l :
  buildList sched fuel target reqs upgrade = Some (Return l) →
  ∃ selected, selected_by sched fuel target reqs upgrade = Some selected ∧
              selected !! Path target = Some (Version target).
Proof.
  intros Hl.
  destruct (buildList_shape_of _ _ _ _ _ _ Hl) as (_ & _ & tail & -> & _ & _ & _ & Hnone).
  apply buildList_Return in Hl as (st & Hdo & Hfin).
  exists (min st). split; [unfold selected_by; by rewrite Hdo|].
  pose proof (Do_explored _ _ _ _ _ _ _ (explored_init _ _ _) Hdo) as [Hex Hpend].
  apply finalize_Return in Hfin as (Htv & _).
  assert (Ht : target ∈ dom (modGraph st))
    by (eapply explored_complete; [done..|constructor]).
  destruct (ex_min_def _ _ _ _ Hex _ Ht) as [s Hs]; [apply Hnone; by left|].
  rewrite Hs in Htv. simpl in Htv. by subst s.
Qed.

(** The upgrade function of [UpgradeAll] in the words of the specification:
    the provider's [Upgrade], except that the target is mapped to itself. *)
Definition spec_upgradeAll_fn (target : module_Version) (reqs : Reqs.t) : upgrade_fn :=
  λ m, if decide (m = target) then Ok target else Reqs.Upgrade reqs m.

(** A module of the build requires an older version of the main module, whose
    latest version has a requirement of its own. *)
Definition requires_older_main : Scenarios.table :=
  [(Scenarios.root, Ok [Scenarios.V "B" "1"]);
   (Scenarios.V "B" "1", Ok [Scenarios.V "A" "1"]);
   (Scenarios.V "A" "1", Ok []);
   (Scenarios.V "A" "2", Ok [Scenarios.V "C" "1"]);
   (Scenarios.V "C" "1", Ok [])].

Definition latest_main (m : module_Version) : result module_Version :=
  if decide (m = Scenarios.V "A" "1") then Ok (Scenarios.V "A" "2") else Ok m.

Definition provider_latest : Reqs.t :=
  Reqs.Build (Scenarios.lookup_table requires_older_main) Scenarios.str_max
    latest_main (λ m, Ok (mkVersion (Path m) none)).

(** C6, as the code has it: the function that [UpgradeAll] hands to the
    explorer maps the target to itself; it is the provider's [Upgrade] on
    every vertex whose path is not the target's, and it maps every vertex with
    the target's path, whatever its version, to the target; a list returned
    by [UpgradeAll] starts with the target, has no other entry with the
    target's path, and comes with the target's own version selected for its
    path; and the result of [UpgradeAll] is the same for two providers that
    differ only in what [Upgrade] returns on the target's path. *)
Theorem UpgradeAll_never_upgrades_the_target sched fuel target reqs :
  upgradeAll_fn target reqs target = Ok target ∧
  (∀ m, Path m ≠ Path target →
        upgradeAll_fn target reqs m = Reqs.Upgrade reqs m) ∧
  (∀ m, Path m = Path target → upgradeAll_fn target reqs m = Ok target) ∧
  (∀ l, UpgradeAll sched fuel target reqs = Some (Return l) →
        head l = Some target ∧
        (∀ m, m ∈ l → Path m = Path target → m = target) ∧
        ∃ selected,
          selected_by sched fuel target reqs (Some (upgradeAll_fn target reqs))
            = Some selected ∧
          selected !! Path target = Some (Version target)) ∧
  (∀ reqs',
     Reqs.Required reqs' = Reqs.Required reqs →
     Reqs.Max reqs' = Reqs.Max reqs →
     (∀ m, Path m ≠ Path target → Reqs.Upgrade reqs' m = Reqs.Upgrade reqs m) →
     UpgradeAll sched fuel target reqs' = UpgradeAll sched fuel target reqs).
Proof.
  split_and!.
  - unfold upgradeAll_fn. by rewrite decide_True.
  - intros m Hne. unfold upgradeAll_fn. by rewrite decide_False.
  - intros m Heq. unfold upgradeAll_fn. by rewrite decide_True.
  - intros l Hl. unfold UpgradeAll in Hl.
    pose proof (buildList_selects_target _ _ _ _ _ _ Hl) as Hsel.
    apply buildList_shape_of in Hl as (selected & _ & tail & -> & Htail & _).
    split_and!; [done| |done]. intros m [->|Hm]%elem_of_cons Hp; [done|].
    apply Htail in Hm as [_ ?]. done.
  - intros reqs' Hreq Hmax Hup. unfold UpgradeAll.
    destruct reqs as [required max up prev], reqs' as [required' max' up' prev'].
    simpl in *. subst required' max'.
    rewrite (buildList_provider _ _ _ _ _ up' prev' up prev).
    apply buildList_ext. intros m. unfold upgradeAll_fn; simpl.
    destruct (decide (Path m = Path target)) as [|Hne]; [done|].
    by apply Hup.
Qed.

Lemma UpgradeAll_target_witness :
  let reqs := provider_latest in
  let l := [Scenarios.V "A" ""; Scenarios.V "B" "1"] in
  upgradeAll_fn Scenarios.root reqs (Scenarios.V "B" "1")
  = Reqs.Upgrade reqs (Scenarios.V "B" "1") ∧
  upgradeAll_fn Scenarios.root reqs (Scenarios.V "A" "1") = Ok Scenarios.root ∧
  head l = Some Scenarios.root ∧
  (∀ m, m ∈ l → Path m = Path Scenarios.root → m = Scenarios.root) ∧
  ∃ selected,
    selected_by Scenarios.fifo 10 Scenarios.root reqs
      (Some (upgradeAll_fn Scenarios.root reqs)) = Some selected ∧
    selected !! Path Scenarios.root = Some (Version Scenarios.root).
Proof.
  intros reqs l.
  destruct (UpgradeAll_never_upgrades_the_target
              Scenarios.fifo 10 Scenarios.root reqs) as (_ & Hframe & Hpath & Hlist & _).
  split; [apply (Hframe (Scenarios.V "B" "1")); discriminate|].
  split; [apply (Hpath (Scenarios.V "A" "1")); reflexivity|].
  apply (Hlist l). vm_compute. reflexivity.
Defined.

(** The claim as stated fails: the function of [UpgradeAll] departs from the
    provider's [Upgrade] on more than the target.  When [B@1] requires the
    older version [A@1] of the main module [A], the function maps [A@1] to the
    target, where the provider's [Upgrade] gives [A@2]; so [UpgradeAll] never
    loads [A@2] and returns [A, B@1], while the explorer run with the
    function of the specification returns [A, B@1, C@1], for every schedule. *)
Lemma UpgradeAll_claim_counterexample :
  let reqs := provider_latest in
  let older := Scenarios.V "A" "1" in
  older ≠ Scenarios.root ∧
  Reqs.Upgrade reqs older = Ok (Scenarios.V "A" "2") ∧
  spec_upgradeAll_fn Scenarios.root reqs older = Ok (Scenarios.V "A" "2") ∧
  upgradeAll_fn Scenarios.root reqs older = Ok Scenarios.root ∧
  upgradeAll_fn Scenarios.root reqs older ≠ Reqs.Upgrade reqs older ∧
  ∀ sched fuel, 5 ≤ fuel →
    UpgradeAll sched fuel Scenarios.root reqs
    = Some (Return [Scenarios.root; Scenarios.V "B" "1"]) ∧
    buildList sched fuel Scenarios.root reqs
      (Some (spec_upgradeAll_fn Scenarios.root reqs))
    = Some (Return [Scenarios.root; Scenarios.V "B" "1"; Scenarios.V "C" "1"]).
Proof.
  intros reqs older. split_and!; [done..|].
  intros sched fuel Hfuel. split.
  - unfold UpgradeAll. apply buildList_all_schedules with (fuel := 5); [|done].
    vm_compute. repeat constructor.
  - apply buildList_all_schedules with (fuel := 5); [|done].
    vm_compute. repeat constructor.
Qed.

(** ** C10: [Upgrade] has no exemption for the target *)

Section UpgradeTo.
Context (reqs : Reqs.t).

(** The version requested for a path: the [Max] of the versions that the
    arguments of [Upgrade] give for it, from left to right. *)
Definition fold_requested (acc : option string) (versions : list string) : option string :=
  foldl (λ acc v, Some (match acc with
                        | Some prev => Reqs.Max reqs prev v
                        | None => v
                        end)) acc versions.

Definition requested (upgrade : list module_Version) (path : string) : option string :=
  fold_requested None (Version <$> filter (λ u, Path u = path) upgrade).

Lemma upgrade_step_lookup pathInList upgrade list upgradeTo path :
  (foldl (upgrade_step reqs pathInList) (list, upgradeTo) upgrade).2 !! path
  = fold_requested (upgradeTo !! path)
      (Version <$> filter (λ u, Path u = path) upgrade).
Proof.
  revert list upgradeTo. induction upgrade as [|u upgrade IH]; intros list upgradeTo.
  - done.
  - cbn [foldl]. unfold upgrade_step at 2. rewrite IH, filter_cons. cbn [fst snd].
    destruct (decide (Path u = path)) as [<-|Hne]; simpl.
    + by destruct (upgradeTo !! Path u); rewrite lookup_insert_eq.
    + by destruct (upgradeTo !! Path u); rewrite lookup_insert_ne.
Qed.

Lemma upgradeTo_of_lookup upgrade path :
  upgradeTo_of reqs upgrade !! path = requested upgrade path.
Proof. unfold upgradeTo_of, requested. by rewrite upgrade_step_lookup. Qed.

Lemma upgrade_step_upgradeTo pathInList upgrade list :
  (foldl (upgrade_step reqs pathInList) (list, ∅) upgrade).2 = upgradeTo_of reqs upgrade.
Proof. apply map_eq. intros path. unfold upgradeTo_of. by rewrite !upgrade_step_lookup. Qed.

Lemma fold_requested_is_Some acc versions :
  is_Some acc ∨ versions ≠ [] → is_Some (fold_requested acc versions).
Proof.
  revert acc. induction versions as [|v versions IH]; intros acc; simpl.
  - by intros [?|?].
  - intros _. apply IH. left. eauto.
Qed.
End UpgradeTo.

(** C10, as the code has it: the function that [Upgrade] hands to the
    explorer looks only at the path of its argument: it returns that path at
    the version requested for it, which is the [Max] of the versions that the
    extras give for the path.  So when some extras entry has the target's
    path the target is mapped to the requested version of its path, and when
    [u] is the only such entry the target is mapped to [{target.path,
    u.version}], which differs from the target when [u.version] does. *)
Theorem Upgrade_maps_target_to_requested_version reqs target extras :
  (∀ sched fuel list,
     Reqs.Required reqs target = Ok list →
     ∃ list',
       Upgrade reqs sched fuel target extras
       = buildList sched fuel target (override target list' reqs)
           (Some (upgrade_to_fn (upgradeTo_of reqs extras)))) ∧
  (∀ m,
     upgrade_to_fn (upgradeTo_of reqs extras) m
     = match requested reqs extras (Path m) with
       | Some v => Ok (mkVersion (Path m) v)
       | None => Ok m
       end) ∧
  (∀ u, u ∈ extras → Path u = Path target →
        ∃ w, requested reqs extras (Path target) = Some w ∧
             upgrade_to_fn (upgradeTo_of reqs extras) target
             = Ok (mkVersion (Path target) w)) ∧
  (∀ u, filter (λ u', Path u' = Path target) extras = [u] →
        upgrade_to_fn (upgradeTo_of reqs extras) target
        = Ok (mkVersion (Path target) (Version u)) ∧
        (Version u ≠ Version target →
         upgrade_to_fn (upgradeTo_of reqs extras) target ≠ Ok target)).
Proof.
  assert (Hfn : ∀ m,
     upgrade_to_fn (upgradeTo_of reqs extras) m
     = match requested reqs extras (Path m) with
       | Some v => Ok (mkVersion (Path m) v)
       | None => Ok m
       end).
  { intros m. unfold upgrade_to_fn. by rewrite upgradeTo_of_lookup. }
  split_and!; [|exact Hfn| |].
  - intros sched fuel list Hreq. unfold Upgrade. rewrite Hreq.
    destruct (foldl _ _ _) as [list' upgradeTo] eqn:E. exists list'.
    by rewrite <- (upgrade_step_upgradeTo reqs (list_to_set (Path <$> list)) extras list), E.
  - intros u Hu Hp. rewrite Hfn.
    destruct (fold_requested_is_Some reqs None
                (Version <$> filter (λ u', Path u' = Path target) extras)) as [w Hw].
    { right. intros Hnil%fmap_nil_inv.
      assert (u ∈ filter (λ u', Path u' = Path target) extras)
        by (by apply list_elem_of_filter).
      rewrite Hnil in H. by apply elem_of_nil in H. }
    exists w. unfold requested. by rewrite Hw.
  - intros u Hu. rewrite Hfn. unfold requested. rewrite Hu; simpl.
    split; [done|]. intros Hne [= Heq]. destruct target; simpl in *. congruence.
Qed.

Lemma Upgrade_maps_target_witness :
  let reqs := Scenarios.provider Scenarios.S2 in
  let u := Scenarios.V "A" "1" in
  upgrade_to_fn (upgradeTo_of reqs [u; Scenarios.V "C" "3"]) Scenarios.root
  = Ok (mkVersion (Path Scenarios.root) (Version u)) ∧
  (Version u ≠ Version Scenarios.root →
   upgrade_to_fn (upgradeTo_of reqs [u; Scenarios.V "C" "3"]) Scenarios.root
   ≠ Ok Scenarios.root).
Proof.
  intros reqs u.
  apply (proj2 (proj2 (proj2 (Upgrade_maps_target_to_requested_version
                                reqs Scenarios.root [u; Scenarios.V "C" "3"])))).
  reflexivity.
Defined.

(** The claim as stated fails when the extras name the target's path twice:
    for the entry [A@1] of the extras [A@1, A@2] the function maps the target
    [A] to [A@2], not to [A@1]. *)
Lemma Upgrade_claim_counterexample :
  let reqs := Scenarios.provider Scenarios.S2 in
  let u := Scenarios.V "A" "1" in
  let extras := [u; Scenarios.V "A" "2"] in
  u ∈ extras ∧ Path u = Path Scenarios.root ∧ Version u ≠ Version Scenarios.root ∧
  upgrade_to_fn (upgradeTo_of reqs extras) Scenarios.root
  ≠ Ok (mkVersion (Path Scenarios.root) (Version u)).
Proof.
  intros reqs u extras. split_and!.
  - by left.
  - done.
  - done.
  - vm_compute. discriminate.
Qed.

(** ** C9: a failure of [Previous] in [Downgrade] *)

Lemma for_each_app {A S : Type} (f : A → S → option (result S)) l1 l2 s s' :
  for_each f l1 s = Some (Ok s') → for_each f (l1 ++ l2) s = for_each f l2 s'.
Proof.
  revert s. induction l1 as [|x l1 IH]; intros s; simpl; [by intros [= <-]|].
  destruct (f x s) as [[s1|e]|]; [apply IH|done..].
Qed.

Lemma for_each_Err {A S : Type} (f : A → S → option (result S)) l s e :
  for_each f l s = Some (Err e) →
  ∃ l1 x l2 s', l = l1 ++ x :: l2 ∧ for_each f l1 s = Some (Ok s') ∧
                f x s' = Some (Err e).
Proof.
  revert s. induction l as [|x l IH]; intros s; simpl; [done|].
  destruct (f x s) as [[s1|e1]|] eqn:Hx; [|intros [= <-]|done].
  - intros (l1 & y & l2 & s' & -> & Hl1 & Hy)%IH.
    exists (x :: l1), y, l2, s'. simpl. by rewrite Hx.
  - by exists [], x, l, s.
Qed.

Section DowngradeErrors.
Context (reqs : Reqs.t) (max : gmap string string).

Lemma lower_Previous_error fuel r st e :
  r ∈ excluded st → Reqs.Previous reqs r = Err e →
  lower reqs max (S fuel) r st = Some (Err e).
Proof. intros Hr He. simpl. by rewrite decide_True, He. Qed.

Lemma lower_Err fuel r st e :
  lower reqs max fuel r st = Some (Err e) →
  ∃ r', Reqs.Previous reqs r' = Err e.
Proof.
  revert r st. induction fuel as [|fuel IH]; intros r st; simpl.
  - by destruct (decide _).
  - destruct (decide (r ∈ excluded st)); [|done].
    destruct (Reqs.Previous reqs r) as [p|e'] eqn:Hp; [|intros [= <-]; eauto].
    destruct (decide (Version _ = none)); [done|].
    destruct (add _ _ _ _ _) as [st'|]; simpl; [apply IH|done].
Qed.

Lemma downgrade_req_Err fuel r acc e :
  downgrade_req reqs max fuel r acc = Some (Err e) →
  ∃ r', Reqs.Previous reqs r' = Err e.
Proof.
  unfold downgrade_req. destruct (add _ _ _ _ _) as [st|]; simpl; [|done].
  destruct (lower _ _ _ _ _) as [[[[r'|] st']|e']|] eqn:Hl; simpl; try done.
  intros [= <-]. by eapply lower_Err.
Qed.
End DowngradeErrors.

(** C9, as the code has it: when [Previous] fails on an excluded requirement
    the loop returns that error at once; [Downgrade] then returns it as it is,
    whatever requirements are left in the list; and every error that
    [Downgrade] returns is the provider's own error from [Required] of the
    target or from [Previous], never a build-list error. *)
Theorem Downgrade_returns_the_error_of_Previous_at_once :
  (∀ reqs max fuel r st e,
     r ∈ excluded st → Reqs.Previous reqs r = Err e →
     lower reqs max (S fuel) r st = Some (Err e)) ∧
  (∀ fuel target reqs downgrade before r after acc e,
     Reqs.Required reqs target = Ok (before ++ r :: after) →
     for_each (downgrade_req reqs (caps reqs (before ++ r :: after) downgrade) fuel)
       before ([target], mkDowngrade ∅ ∅ ∅) = Some (Ok acc) →
     downgrade_req reqs (caps reqs (before ++ r :: after) downgrade) fuel r acc
       = Some (Err e) →
     Downgrade fuel target reqs downgrade = Some (Fail (ProviderError e))) ∧
  (∀ fuel target reqs downgrade err,
     Downgrade fuel target reqs downgrade = Some (Fail err) →
     ∃ e, err = ProviderError e ∧
          (Reqs.Required reqs target = Err e ∨ ∃ r, Reqs.Previous reqs r = Err e)).
Proof.
  split_and!.
  - intros. by apply lower_Previous_error.
  - intros fuel target reqs downgrade before r after acc e Hreq Hbefore Hr.
    unfold Downgrade. rewrite Hreq.
    rewrite (for_each_app _ _ _ _ _ Hbefore). simpl. by rewrite Hr.
  - intros fuel target reqs downgrade err. unfold Downgrade.
    destruct (Reqs.Required reqs target) as [list|e] eqn:Hreq.
    + destruct (for_each _ _ _) as [[[out st]|e]|] eqn:Hfor; simpl; try done.
      intros [= <-]. exists e. split; [done|]. right.
      apply for_each_Err in Hfor as (l1 & x & l2 & s' & _ & _ & Hx).
      by eapply downgrade_req_Err.
    + intros [= <-]. eauto.
Qed.

Lemma Downgrade_error_witness :
  let reqs := Scenarios.provider_prev Scenarios.S5 Scenarios.previous_fails in
  ∃ e, ProviderError "E" = ProviderError e ∧
       (Reqs.Required reqs (Scenarios.V "R" "") = Err e ∨
        ∃ r, Reqs.Previous reqs r = Err e).
Proof.
  intros reqs.
  apply (proj2 (proj2 Downgrade_returns_the_error_of_Previous_at_once)
           10 (Scenarios.V "R" "") reqs [Scenarios.V "B" "1"]).
  vm_compute. reflexivity.
Defined.

(** The claim as stated fails: on scenario S5 with a repository that cannot
    be reached, [Previous] fails on [A@3] and [Downgrade] returns that error
    itself, not a build-list error with an error path. *)
Lemma Downgrade_claim_counterexample :
  let reqs := Scenarios.provider_prev Scenarios.S5 Scenarios.previous_fails in
  Reqs.Previous reqs (Scenarios.V "A" "3") = Err "E" ∧
  Downgrade 10 (Scenarios.V "R" "") reqs [Scenarios.V "B" "1"]
  = Some (Fail (ProviderError "E")) ∧
  ∀ b, Downgrade 10 (Scenarios.V "R" "") reqs [Scenarios.V "B" "1"]
       ≠ Some (Fail (BuildListErr b)).
Proof.
  intros reqs.
  assert (H : Downgrade 10 (Scenarios.V "R" "") reqs [Scenarios.V "B" "1"]
              = Some (Fail (ProviderError "E"))) by (vm_compute; reflexivity).
  split_and!; [done..|]. intros b. by rewrite H.
Qed.

(** ** The search for the shortest path to a failing vertex *)

(** Consecutive entries of a list are related by [E]. *)
Fixpoint linked {A : Type} (E : A → A → Prop) (l : list A) : Prop :=
  match l with
  | x :: (y :: _) as l' => E x y ∧ linked E l'
  | _ => True
  end.

Lemma linked_snoc {A : Type} (E : A → A → Prop) l x y :
  linked E l → last l = Some x → E x y → linked E (l ++ [y]).
Proof.
  induction l as [|a [|b l] IH]; simpl; [done|..].
  - by intros _ [= ->] ?.
  - intros [Hab Hl] Hlast Hxy. split; [done|]. by apply IH.
Qed.

Section ShortestPath.
Context (G : gmap module_Version modGraphNode) (target : module_Version).

(** The graph that the search walks: every node is stored under its own
    version, the neighbours of a node without error have nodes, and no such
    node has the target as a neighbour. *)
Hypothesis Hkey : ∀ k n, G !! k = Some n → node_m n = k.
Hypothesis Hclosed :
  ∀ k n r, G !! k = Some n → node_err n = None → r ∈ neighbors n → r ∈ dom G.
Hypothesis Hsource :
  ∀ k n, G !! k = Some n → node_err n = None → target ∉ neighbors n.

(** An edge that the search may follow. *)
Definition search_edge (u r : module_Version) : Prop :=
  ∃ n, G !! u = Some n ∧ node_err n = None ∧ r ∈ neighbors n.

(** [walk_to v k]: [v] is [k] edges away from the target. *)
Inductive walk_to : module_Version → nat → Prop :=
| walk_target : walk_to target 0
| walk_edge u r k : walk_to u k → search_edge u r → walk_to r (S k).

(** The depth of a queue entry under the ghost depth map [d]. *)
Definition depth_of (d : gmap module_Version nat) (x : node_ptr) : nat :=
  default 0 (x ≫= λ n, d !! node_m n).

(** The invariant of the loop.  [d] gives the depth of every vertex found so
    far, [done] holds the vertices already taken from the queue, [D] is the
    depth of the vertex being expanded, and [seen u w] tells which edges out
    of [done] have been looked at.  The queue holds vertices of depth [D]
    followed by vertices of depth [S D]. *)
Record bfs_inv (D : nat) (seen : module_Version → module_Version → Prop)
    (d : gmap module_Version nat) (done : gset module_Version)
    (nb : gmap (option module_Version) modGraphNode) (q : list node_ptr) : Prop := {
  bi_target : d !! target = Some 0 ∧ nb !! Some target = None;
  bi_visited : ∀ v, is_Some (d !! v) ↔ v = target ∨ is_Some (nb !! Some v);
  bi_parent : ∀ v nu, nb !! Some v = Some nu →
      G !! node_m nu = Some nu ∧ node_err nu = None ∧ v ∈ neighbors nu ∧
      node_m nu ∈ done ∧
      ∃ du, d !! node_m nu = Some du ∧ d !! v = Some (S du);
  bi_queue : ∀ x, x ∈ q →
      ∃ n, x = Some n ∧ G !! node_m n = Some n ∧ is_Some (d !! node_m n) ∧
           node_m n ∉ done;
  bi_nodup : NoDup q;
  bi_split : ∀ v, is_Some (d !! v) → v ∈ done ∨ ∃ n, G !! v = Some n ∧ Some n ∈ q;
  bi_done : ∀ u, u ∈ done →
      ∃ nu du, G !! u = Some nu ∧ node_err nu = None ∧ d !! u = Some du ∧ du ≤ D ∧
               ∀ w, w ∈ neighbors nu → seen u w →
                    ∃ dw, d !! w = Some dw ∧ dw ≤ S du;
  bi_layers : ∃ q1 q2, q = q1 ++ q2 ∧
      (∀ x, x ∈ q1 → depth_of d x = D) ∧ (∀ x, x ∈ q2 → depth_of d x = S D);
  bi_high : ∀ v dv, d !! v = Some dv → dv ≤ S D;
  bi_bound : ∀ x, x ∈ q → depth_of d x ≤ size done
}.

Lemma bfs_inv_seen D (seen seen' : module_Version → module_Version → Prop) d done nb q :
  (∀ u nu w, u ∈ done → G !! u = Some nu → w ∈ neighbors nu → seen' u w → seen u w) →
  bfs_inv D seen d done nb q → bfs_inv D seen' d done nb q.
Proof.
  intros Himp [H1 H2 H3 H4 H5 H6 H7 H8 H9 H10]. split; try done.
  intros u Hu. destruct (H7 u Hu) as (nu & du & Hnu & He & Hdu & Hle & Hrel).
  exists nu, du. split_and!; try done. intros w Hw Hs. apply Hrel; [done|]. eauto.
Qed.

Lemma bfs_inv_init nt :
  G !! target = Some nt →
  bfs_inv 0 (λ _ _, True) {[target := 0]} ∅ ∅ [Some nt].
Proof.
  intros Hnt. pose proof (Hkey _ _ Hnt) as Hm.
  assert (Hd : depth_of {[target := 0]} (Some nt) = 0).
  { unfold depth_of; simpl. by rewrite Hm, lookup_singleton_eq. }
  split.
  - by rewrite lookup_singleton_eq, lookup_empty.
  - intros v. rewrite lookup_empty. split.
    + intros [x Hx]. apply lookup_singleton_Some in Hx as [-> _]. by left.
    + intros [->|[? [=]]]. rewrite lookup_singleton_eq. eauto.
  - intros v nu. by rewrite lookup_empty.
  - intros x ->%list_elem_of_singleton. exists nt. rewrite Hm.
    split_and!; [done..| |set_solver]. rewrite lookup_singleton_eq. eauto.
  - apply NoDup_singleton.
  - intros v [x Hx]. apply lookup_singleton_Some in Hx as [<- _]. right.
    exists nt. split; [done|]. by left.
  - intros u Hu. set_solver.
  - exists [Some nt], []. split_and!; [done| |by intros x ?%elem_of_nil].
    by intros x ->%list_elem_of_singleton.
  - intros v dv Hv. apply lookup_singleton_Some in Hv as [_ <-]. lia.
  - intros x ->%list_elem_of_singleton. rewrite Hd. lia.
Qed.

Lemma depth_of_insert_ne d w k (x : node_ptr) n :
  x = Some n → node_m n ≠ w → depth_of (<[w := k]> d) x = depth_of d x.
Proof. intros -> Hne. unfold depth_of; simpl. by rewrite lookup_insert_ne. Qed.

(** Looking at one neighbour [w] of the vertex [node] being expanded. *)
Lemma discover_inv D seen d done nb q node w :
  G !! node_m node = Some node → node_err node = None →
  node_m node ∈ done → d !! node_m node = Some D → S D ≤ size done →
  w ∈ neighbors node →
  bfs_inv D seen d done nb q →
  ∃ d',
    bfs_inv D (λ u x, seen u x ∨ (u = node_m node ∧ x = w)) d' done
      (discover G node (nb, q) w).1 (discover G node (nb, q) w).2 ∧
    d' !! node_m node = Some D.
Proof.
  intros Hnode Herr Hdone HD Hsize Hw Hinv.
  assert (Hwdom : w ∈ dom G) by eauto.
  apply elem_of_dom in Hwdom as [nw Hnw]. pose proof (Hkey _ _ Hnw) as Hmw.
  unfold discover. rewrite Hnw. simpl. rewrite Hmw.
  destruct Hinv as [Ht Hvis Hpar Hq Hnd Hsplit Hdn Hlay Hhigh Hbound].
  destruct (nb !! Some w) as [nu|] eqn:Hnbw; simpl.
  - exists d. split; [|done]. split; try done.
    intros u Hu. destruct (Hdn u Hu) as (nu' & du & Hnu' & He & Hdu & Hle & Hrel).
    exists nu', du. split_and!; try done.
    intros x Hx [Hs|[-> ->]]; [by apply Hrel|].
    assert (is_Some (d !! w)) as [dw Hdw] by (apply Hvis; right; eauto).
    exists dw. split; [done|]. rewrite HD in Hdu. injection Hdu as <-. eauto.
  - assert (Hwt : w ≠ target).
    { intros Heq. rewrite Heq in Hw. exact (Hsource _ _ Hnode Herr Hw). }
    assert (Hdw : d !! w = None).
    { destruct (d !! w) eqn:E; [|done].
      destruct (proj1 (Hvis w)) as [?|[? ?]]; [eauto|done|congruence]. }
    assert (Hcur : node_m node ≠ w) by (intros Heq; congruence).
    assert (Hqne : ∀ x, x ∈ q → ∃ n, x = Some n ∧ node_m n ≠ w).
    { intros x Hx. destruct (Hq x Hx) as (n & -> & _ & [? Hdn'] & _).
      exists n. split; [done|]. intros Heq. congruence. }
    assert (Hdq : ∀ x, x ∈ q → depth_of (<[w := S D]> d) x = depth_of d x).
    { intros x Hx. destruct (Hqne x Hx) as (n & -> & ?).
      by eapply depth_of_insert_ne. }
    assert (Hnew : depth_of (<[w := S D]> d) (Some nw) = S D).
    { unfold depth_of; simpl. by rewrite Hmw, lookup_insert_eq. }
    exists (<[w := S D]> d). split; [|by rewrite lookup_insert_ne]. split.
    + destruct Ht as [Ht1 Ht2]. by rewrite !lookup_insert_ne by congruence.
    + intros v. destruct (decide (v = w)) as [->|Hne].
      * rewrite !lookup_insert_eq. split; eauto.
      * rewrite !lookup_insert_ne by congruence. apply Hvis.
    + intros v nu. destruct (decide (v = w)) as [->|Hne].
      * rewrite lookup_insert_eq. intros [= <-]. split_and!; try done.
        exists D. by rewrite lookup_insert_ne, lookup_insert_eq.
      * rewrite lookup_insert_ne by congruence. intros Hv.
        destruct (Hpar v nu Hv) as (H1 & H2 & H3 & H4 & du & H5 & H6).
        split_and!; try done. exists du.
        rewrite !lookup_insert_ne; [done|congruence|congruence].
    + intros x [Hx|Hx]%elem_of_app; [|apply list_elem_of_singleton in Hx as ->].
      * destruct (Hq x Hx) as (n & -> & Hn & [dn Hdn'] & Hnd').
        exists n. split_and!; try done.
        rewrite lookup_insert_ne by congruence. eauto.
      * exists nw. rewrite Hmw, lookup_insert_eq. split_and!; eauto.
        intros Hin. destruct (Hdn w Hin) as (? & ? & _ & _ & ? & _). congruence.
    + apply NoDup_app. split_and!; [done| |apply NoDup_singleton].
      intros x Hx ->%list_elem_of_singleton.
      destruct (Hqne _ Hx) as (n & [= <-] & ?). done.
    + intros v. destruct (decide (v = w)) as [->|Hne].
      * intros _. right. exists nw. split; [done|]. apply elem_of_app. right. by left.
      * rewrite lookup_insert_ne by done. intros Hv.
        destruct (Hsplit v Hv) as [?|(n & ? & ?)]; [by left|right].
        exists n. split; [done|]. apply elem_of_app. by left.
    + intros u Hu. destruct (Hdn u Hu) as (nu' & du & Hnu' & He & Hdu & Hle & Hrel).
      exists nu', du. split_and!; try done.
      { rewrite lookup_insert_ne; [done|congruence]. }
      intros x Hx [Hs|[-> ->]].
      * destruct (Hrel x Hx Hs) as (dx & Hdx & ?). exists dx.
        rewrite lookup_insert_ne; [done|congruence].
      * exists (S D). rewrite lookup_insert_eq. split; [done|].
        rewrite HD in Hdu. injection Hdu as <-. lia.
    + destruct Hlay as (q1 & q2 & -> & Hq1 & Hq2).
      exists q1, (q2 ++ [Some nw]). split_and!.
      * by rewrite app_assoc.
      * intros x Hx. rewrite Hdq; [auto|]. apply elem_of_app. by left.
      * intros x [Hx|Hx]%elem_of_app; [|by apply list_elem_of_singleton in Hx as ->].
        rewrite Hdq; [auto|]. apply elem_of_app. by right.
    + intros v dv. destruct (decide (v = w)) as [->|Hne].
      * rewrite lookup_insert_eq. intros [= <-]. lia.
      * rewrite lookup_insert_ne by done. apply Hhigh.
    + intros x [Hx|Hx]%elem_of_app; [|apply list_elem_of_singleton in Hx as ->].
      * rewrite Hdq by done. by apply Hbound.
      * by rewrite Hnew.
Qed.

Lemma discover_fold D seen d done nb q node ws :
  G !! node_m node = Some node → node_err node = None →
  node_m node ∈ done → d !! node_m node = Some D → S D ≤ size done →
  (∀ w, w ∈ ws → w ∈ neighbors node) →
  bfs_inv D seen d done nb q →
  ∃ d',
    bfs_inv D (λ u x, seen u x ∨ (u = node_m node ∧ x ∈ ws)) d' done
      (foldl (discover G node) (nb, q) ws).1 (foldl (discover G node) (nb, q) ws).2.
Proof.
  intros Hnode Herr Hdone HD Hsize.
  revert seen d nb q HD. induction ws as [|w ws IH]; intros seen d nb q HD Hws Hinv.
  - exists d. simpl. eapply bfs_inv_seen; [|done].
    intros u nu w _ _ _ [?|[_ ?%elem_of_nil]]; done.
  - destruct (discover_inv D seen d done nb q node w) as (d1 & Hinv1 & HD1);
      [done..|apply Hws; by left|done|].
    simpl. destruct (discover G node (nb, q) w) as [nb1 q1]. simpl in Hinv1.
    destruct (IH _ d1 nb1 q1 HD1 (λ x Hx, Hws x (list_elem_of_further _ _ _ Hx)) Hinv1)
      as (d2 & Hinv2).
    exists d2. eapply bfs_inv_seen; [|done].
    intros u nu x _ _ _ [?|[-> [->|?]%elem_of_cons]]; auto.
Qed.

(** The vertex has a node with an error. *)
Definition failing (b : module_Version) : Prop :=
  ∃ n, G !! b = Some n ∧ is_Some (node_err n).

(** [p] leads from the target to [f] along edges of the search. *)
Definition path_to (p : list module_Version) (f : module_Version) : Prop :=
  head p = Some target ∧ last p = Some f ∧ linked search_edge p.

(** Following [neededBy] from [v] back to the target visits [p] in reverse. *)
Inductive chain_to (nb : gmap (option module_Version) modGraphNode)
    : module_Version → list module_Version → Prop :=
| chain_target : nb !! Some target = None → chain_to nb target [target]
| chain_step v nu p :
    nb !! Some v = Some nu → chain_to nb (node_m nu) p → chain_to nb v (p ++ [v]).

Lemma chain_exists D seen d done nb q dv v :
  bfs_inv D seen d done nb q → d !! v = Some dv →
  ∃ p, chain_to nb v p ∧ length p = S dv ∧ path_to p v.
Proof.
  intros Hinv. revert v. induction dv as [|dv IH]; intros v Hv.
  - assert (v = target) as ->.
    { destruct (proj1 (bi_visited _ _ _ _ _ _ Hinv v)) as [?|[nu Hnu]]; [eauto|done|].
      destruct (bi_parent _ _ _ _ _ _ Hinv v nu Hnu) as (_ & _ & _ & _ & du & _ & ?).
      congruence. }
    exists [target]. split_and!; [|done|done].
    constructor. apply (bi_target _ _ _ _ _ _ Hinv).
  - destruct (proj1 (bi_visited _ _ _ _ _ _ Hinv v)) as [->|[nu Hnu]]; [eauto| |].
    { destruct (bi_target _ _ _ _ _ _ Hinv). congruence. }
    destruct (bi_parent _ _ _ _ _ _ Hinv v nu Hnu)
      as (Hnode & Herr & Hnbr & _ & du & Hdu & Hdv).
    assert (du = dv) as -> by congruence.
    destruct (IH _ Hdu) as (p & Hchain & Hlen & Hhd & Hlast & Hlink).
    exists (p ++ [v]). split_and!.
    + by econstructor.
    + rewrite length_app; simpl. lia.
    + unfold path_to. split_and!.
      * destruct p; [done|]. done.
      * by rewrite last_snoc.
      * eapply linked_snoc; [done..|]. by exists nu.
Qed.

Lemma chain_length nb v p : chain_to nb v p → 1 ≤ length p.
Proof. destruct 1; [simpl; lia|]. rewrite length_app; simpl. lia. Qed.

Lemma walk_back_chain nb v p :
  chain_to nb v p →
  ∀ fuel acc pathUpgrade nv,
    length p ≤ S fuel → node_m nv = v →
    ∃ pathUpgrade',
      walk_back fuel nb (nb !! Some v) nv (acc ++ [v]) pathUpgrade
      = Some (acc ++ reverse p, pathUpgrade').
Proof.
  induction 1 as [Hnone|v nu p Hnu Hchain IH]; intros fuel acc pathUpgrade nv Hlen Hnv.
  - rewrite Hnone. exists pathUpgrade. by destruct fuel.
  - rewrite Hnu. rewrite length_app in Hlen; simpl in Hlen.
    pose proof (chain_length _ _ _ Hchain).
    destruct fuel as [|fuel]; [lia|]. simpl.
    edestruct (IH fuel (acc ++ [v])) as (pu' & ->); [lia|done|].
    eexists. by rewrite reverse_snoc, <- app_assoc.
Qed.

(** At the top of the loop the depth being expanded is that of the head. *)
Lemma bfs_inv_head D seen d done nb node q :
  bfs_inv D seen d done nb (Some node :: q) →
  ∃ D' q1 q2,
    bfs_inv D' seen d done nb (Some node :: q) ∧ d !! node_m node = Some D' ∧
    q = q1 ++ q2 ∧
    (∀ x, x ∈ q1 → depth_of d x = D') ∧ (∀ x, x ∈ q2 → depth_of d x = S D').
Proof.
  intros Hinv.
  destruct (bi_queue _ _ _ _ _ _ Hinv (Some node)) as (n & [= <-] & Hn & [dn Hdn] & Hnd);
    [by left|].
  assert (Hdepth : depth_of d (Some node) = dn) by (unfold depth_of; simpl; by rewrite Hdn).
  destruct (bi_layers _ _ _ _ _ _ Hinv) as (q1 & q2 & Heq & Hq1 & Hq2).
  destruct q1 as [|x q1]; simpl in Heq.
  - exists (S D), q, []. subst q2.
    assert (dn = S D) as -> by (rewrite <- Hdepth; apply Hq2; by left).
    split_and!; [|done|by rewrite app_nil_r| |by intros x ?%elem_of_nil].
    + destruct Hinv as [Ht Hvis Hpar Hq Hnodup Hsplit Hdn' Hlay Hhigh Hbound].
      split; try done.
      * intros u Hu. destruct (Hdn' u Hu) as (nu & du & ? & ? & ? & ? & ?).
        exists nu, du. split_and!; try done. lia.
      * exists (Some node :: q), []. split_and!; [by rewrite app_nil_r|done|].
        by intros x ?%elem_of_nil.
      * intros v dv Hv. apply Hhigh in Hv. lia.
    + intros x Hx. apply Hq2. by right.
  - injection Heq as <- ->.
    assert (dn = D) as -> by (rewrite <- Hdepth; apply Hq1; by left).
    exists D, q1, q2. split_and!; try done. intros x Hx. apply Hq1. by right.
Qed.

(** Every walk either ends in a vertex found at most that far from the
    target, or is at least as long as the depth being expanded. *)
Lemma walk_depth D d done nb q v k :
  bfs_inv D (λ _ _, True) d done nb q → walk_to v k →
  (∃ dv, d !! v = Some dv ∧ dv ≤ k) ∨ D ≤ k.
Proof.
  intros Hinv. induction 1 as [|u r k Hwalk IH (n & Hn & Herr & Hr)].
  - left. exists 0. split; [apply (bi_target _ _ _ _ _ _ Hinv)|lia].
  - destruct IH as [(du & Hdu & Hle)|?]; [|right; lia].
    destruct (bi_split _ _ _ _ _ _ Hinv u) as [Hdone|(n' & Hn' & Hq)]; [eauto| |].
    + destruct (bi_done _ _ _ _ _ _ Hinv u Hdone) as (nu & du' & Hnu & _ & Hdu' & _ & Hrel).
      assert (nu = n) as -> by congruence. assert (du' = du) as -> by congruence.
      destruct (Hrel r Hr I) as (dr & Hdr & ?). left. exists dr. split; [done|lia].
    + right. destruct (bi_layers _ _ _ _ _ _ Hinv) as (q1 & q2 & -> & Hq1 & Hq2).
      assert (depth_of d (Some n') = du)
        by (unfold depth_of; simpl; rewrite (Hkey _ _ Hn'); by rewrite Hdu).
      apply elem_of_app in Hq as [Hq|Hq]; [apply Hq1 in Hq|apply Hq2 in Hq]; lia.
Qed.

(** With the queue empty, every walk ends in a vertex that was expanded. *)
Lemma walk_done D d done nb v k :
  bfs_inv D (λ _ _, True) d done nb [] → walk_to v k → v ∈ done.
Proof.
  intros Hinv.
  assert (Hall : ∀ x, is_Some (d !! x) → x ∈ done).
  { intros x Hx. destruct (bi_split _ _ _ _ _ _ Hinv x Hx) as [?|(n & _ & Hin)]; [done|].
    by apply elem_of_nil in Hin. }
  induction 1 as [|u r k Hwalk IH (n & Hn & Herr & Hr)].
  - apply Hall. destruct (bi_target _ _ _ _ _ _ Hinv) as [-> _]. eauto.
  - destruct (bi_done _ _ _ _ _ _ Hinv u IH) as (nu & du & Hnu & _ & _ & _ & Hrel).
    assert (nu = n) as -> by congruence.
    destruct (Hrel r Hr I) as (dr & Hdr & _). apply Hall. eauto.
Qed.

Lemma bfs_done_dom D seen d done nb q :
  bfs_inv D seen d done nb q → done ⊆ dom G.
Proof.
  intros Hinv u Hu.
  destruct (bi_done _ _ _ _ _ _ Hinv u Hu) as (nu & _ & Hnu & _). by eapply elem_of_dom_2.
Qed.

(** Taking the head [node] from the queue, before its neighbours are seen. *)
Lemma bfs_inv_take D d done nb node q1 q2 :
  bfs_inv D (λ _ _, True) d done nb (Some node :: q1 ++ q2) →
  d !! node_m node = Some D → node_err node = None →
  (∀ x, x ∈ q1 → depth_of d x = D) → (∀ x, x ∈ q2 → depth_of d x = S D) →
  bfs_inv D (λ u _, u ≠ node_m node) d ({[node_m node]} ∪ done) nb (q1 ++ q2) ∧
  S D ≤ size ({[node_m node]} ∪ done).
Proof.
  intros Hinv HD Herr Hq1 Hq2.
  destruct (bi_queue _ _ _ _ _ _ Hinv (Some node)) as (n & [= <-] & Hn & _ & Hnd);
    [by left|].
  pose proof (bi_nodup _ _ _ _ _ _ Hinv) as Hnodup.
  apply NoDup_cons in Hnodup as [Hfresh Hnodup].
  assert (Hdepth : depth_of d (Some node) = D) by (unfold depth_of; simpl; by rewrite HD).
  pose proof (bi_bound _ _ _ _ _ _ Hinv (Some node)) as HDle.
  rewrite Hdepth in HDle.
  assert (Hsize : size ({[node_m node]} ∪ done) = S (size done)).
  { rewrite size_union by set_solver. by rewrite size_singleton. }
  split; [|rewrite Hsize; apply le_n_S, HDle; by left].
  destruct Hinv as [Ht Hvis Hpar Hq _ Hsplit Hdn _ Hhigh Hbound].
  split; try done.
  - intros v nu Hv. destruct (Hpar v nu Hv) as (? & ? & ? & ? & ?).
    split_and!; try done. set_solver.
  - intros x Hx. destruct (Hq x) as (n & -> & Hn' & Hdn' & Hnd'); [by right|].
    exists n. split_and!; try done.
    intros [Heq%elem_of_singleton|?]%elem_of_union; [|done].
    apply Hfresh. rewrite Heq in Hn'. assert (n = node) as -> by congruence. done.
  - intros v Hv. destruct (Hsplit v Hv) as [?|(n & Hn' & Hin)]; [left; set_solver|].
    apply elem_of_cons in Hin as [[= ->]|Hin].
    + left. rewrite <- (Hkey _ _ Hn'). set_solver.
    + right. eauto.
  - intros u [Hu%elem_of_singleton|Hu]%elem_of_union.
    + subst u. exists node, D. split_and!; done.
    + destruct (Hdn u Hu) as (nu & du & ? & ? & ? & ? & Hrel).
      exists nu, du. split_and!; try done. intros w Hw _. by apply Hrel.
  - by exists q1, q2.
  - intros x Hx. rewrite Hsize. etrans; [apply Hbound; by right|lia].
Qed.

Lemma error_path_step budget fuel nb node (q : list node_ptr) :
  node_err node = None →
  error_path G budget (S fuel) nb (Some node :: q)
  = error_path G budget fuel
      (foldl (discover G node) (nb, q) (neighbors node)).1
      (foldl (discover G node) (nb, q) (neighbors node)).2.
Proof.
  intros Herr. simpl. rewrite Herr.
  destruct (foldl (discover G node) (nb, q) (neighbors node)) as [nb' q'] eqn:E.
  reflexivity.
Qed.

(** The search finds a failing vertex when a walk leads to one, and the path
    it reports is a shortest walk from the target to a failing vertex. *)
Lemma error_path_finds budget fuel D d done nb q :
  bfs_inv D (λ _ _, True) d done nb q →
  size (dom G ∖ done) ≤ fuel → size (dom G) ≤ S budget →
  (∃ b k, walk_to b k ∧ failing b) →
  ∃ e p f nf isUp,
    error_path G budget fuel nb q = Some (Found (NewBuildListError e p isUp)) ∧
    G !! f = Some nf ∧ node_err nf = Some e ∧ path_to p f ∧
    ∀ b k, walk_to b k → failing b → length p ≤ S k.
Proof.
  intros Hinv Hfuel Hbudget Hbad.
  revert D d done nb q Hinv Hfuel.
  induction fuel as [|fuel IH]; intros D d done nb q Hinv Hfuel.
  all: destruct q as [|x q];
    [exfalso; destruct Hbad as (b & k & Hwalk & nf & Hnf & Hfail);
     pose proof (walk_done _ _ _ _ _ _ Hinv Hwalk) as Hb;
     destruct (bi_done _ _ _ _ _ _ Hinv b Hb) as (nu & _ & Hnu & Hnone & _);
     assert (nu = nf) as -> by congruence; rewrite Hnone in Hfail;
     by destruct Hfail|].
  all: destruct (bi_queue _ _ _ _ _ _ Hinv x) as (node & -> & Hnode & _ & Hnd); [by left|].
  all: destruct (bfs_inv_head _ _ _ _ _ _ _ Hinv) as (D' & q1 & q2 & Hinv' & HD' & -> & Hq1 & Hq2).
  all: pose proof (bfs_done_dom _ _ _ _ _ _ Hinv) as Hsub.
  all: assert (Hcur : node_m node ∈ dom G ∖ done)
         by (apply elem_of_difference; split; [by eapply elem_of_dom_2|done]).
  all: destruct (node_err node) as [e|] eqn:Herr.
  1, 3: (* the head has an error *)
    destruct (chain_exists _ _ _ _ _ _ _ _ Hinv' HD') as (p & Hchain & Hlen & Hpath);
    assert (Hdepth : depth_of d (Some node) = D')
      by (unfold depth_of; simpl; by rewrite HD');
    assert (HDle : D' ≤ size done)
      by (rewrite <- Hdepth; apply (bi_bound _ _ _ _ _ _ Hinv'); by left);
    assert (Hlt : size done < size (dom G))
      by (apply subset_size; set_solver);
    destruct (walk_back_chain _ _ _ Hchain budget [] ∅ node) as (pu & Hwb);
      [lia|done|];
    exists e, p, (node_m node), node, (isUpgrade pu);
    (split_and!; [|done|done|done|]);
    [try destruct fuel; simpl; rewrite Herr; simpl in Hwb; rewrite Hwb; simpl;
     by rewrite reverse_involutive
    |intros b k Hwalk (nf & Hnf & Hfail); rewrite Hlen; apply le_n_S;
     destruct (walk_depth _ _ _ _ _ _ _ Hinv' Hwalk) as [(db & Hdb & Hle)|?]; [|done];
     destruct (bi_split _ _ _ _ _ _ Hinv' b) as [Hb|(n' & Hn' & Hin)]; [eauto| |];
     [destruct (bi_done _ _ _ _ _ _ Hinv' b Hb) as (nu & _ & Hnu & Hnone & _);
      assert (nu = nf) as -> by congruence; rewrite Hnone in Hfail; by destruct Hfail
     |assert (depth_of d (Some n') = db)
        by (unfold depth_of; simpl; rewrite (Hkey _ _ Hn'); by rewrite Hdb);
      apply elem_of_cons in Hin as [[= ->]|Hin];
      [lia|apply elem_of_app in Hin as [Hin|Hin];
           [apply Hq1 in Hin|apply Hq2 in Hin]; lia]]].
  - (* no fuel, but a vertex is left to expand *)
    exfalso. assert (size (dom G ∖ done) ≠ 0); [|lia].
    apply size_non_empty_iff. set_solver.
  - (* expand the head *)
    rewrite error_path_step by done.
    destruct (bfs_inv_take _ _ _ _ _ _ _ Hinv' HD' Herr Hq1 Hq2) as [Hopen Hsize].
    destruct (discover_fold D' (λ u _, u ≠ node_m node) d ({[node_m node]} ∪ done)
                nb (q1 ++ q2) node (neighbors node))
      as (d' & Hfold); [done|done|set_solver|done|done|done|done|].
    apply (IH D' d' ({[node_m node]} ∪ done)).
    + eapply bfs_inv_seen; [|done]. intros u nu w _ Hnu Hw _.
      destruct (decide (u = node_m node)) as [->|]; [right|by left].
      split; [done|]. by assert (nu = node) as -> by congruence.
    + assert (size (dom G ∖ ({[node_m node]} ∪ done)) < size (dom G ∖ done)); [|lia].
      apply subset_size. set_solver.
Qed.
End ShortestPath.

(** ** The exploration ends when the reachable vertices are finitely many *)

Lemma Do_terminates reqs upgrade target sched (U : gset module_Version) fuel st :
  explored reqs upgrade target st →
  (∀ x, reachable reqs upgrade target x → x ∈ U) →
  size (U ∖ dom (modGraph st)) < fuel →
  ∃ st', Do reqs upgrade sched fuel st = Some st'.
Proof.
  intros Hex HU. revert st Hex. induction fuel as [|fuel IH]; intros st Hex Hsize; [lia|].
  destruct (decide (pending st = [])) as [Hp|Hp].
  - exists st. by apply Do_done.
  - destruct (Do_step reqs upgrade sched fuel st Hp) as (i & item & Hi & ->).
    apply IH; [by apply explored_visit|].
    rewrite visit_eq; simpl. rewrite dom_insert_L.
    assert (Hitem : item ∈ pending st) by (by eapply list_elem_of_lookup_2).
    assert (item ∈ U).
    { apply HU, (ex_reach _ _ _ _ Hex). by apply (ex_queue _ _ _ _ Hex). }
    assert (item ∉ dom (modGraph st)).
    { intros Hin. by apply (ex_done _ _ _ _ Hex) in Hin as [_ ?]. }
    assert (size (U ∖ ({[item]} ∪ dom (modGraph st))) < size (U ∖ dom (modGraph st)));
      [|lia].
    apply subset_size. set_solver.
Qed.

(** ** The graph left by the exploration *)

Lemma node_of_m reqs upgrade k : node_m (node_of reqs upgrade k) = k.
Proof.
  unfold node_of, with_upgrade.
  destruct (decide _); [destruct (Reqs.Required reqs k)|]; simpl; try done;
    by destruct (upgrade_of upgrade k) as [[?|]|?].
Qed.

Lemma neighbors_out_edges reqs upgrade k r :
  r ∈ neighbors (node_of reqs upgrade k) → r ∈ out_edges reqs upgrade k.
Proof.
  unfold neighbors, node_of, out_edges, upgrade_edge, with_upgrade; simpl.
  destruct (decide (Version k ≠ none)).
  - destruct (Reqs.Required reqs k) as [required|e]; simpl.
    + destruct (upgrade_of upgrade k) as [[u|]|e]; simpl;
        try case_decide; simpl; set_solver.
    + try case_decide; done.
  - destruct (upgrade_of upgrade k) as [[u|]|e]; simpl;
      try case_decide; simpl; set_solver.
Qed.

(** A step along a requirement that loaded. *)
Definition required_step (reqs : Reqs.t) (u r : module_Version) : Prop :=
  Version u ≠ none ∧ ∃ required, Reqs.Required reqs u = Ok required ∧ r ∈ required.

(** The requirements of the vertex do not load. *)
Definition required_fails (reqs : Reqs.t) (b : module_Version) (e : error) : Prop :=
  Version b ≠ none ∧ Reqs.Required reqs b = Err e.

Lemma node_of_None_err reqs k :
  node_err (node_of reqs None k) =
  if decide (Version k ≠ none)
  then match Reqs.Required reqs k with Err e => Some e | Ok _ => None end
  else None.
Proof.
  unfold node_of, with_upgrade; simpl.
  destruct (decide _); [by destruct (Reqs.Required reqs k)|done].
Qed.

Lemma node_of_None_neighbors reqs k r :
  r ∈ neighbors (node_of reqs None k) ↔ required_step reqs k r.
Proof.
  unfold neighbors, node_of, with_upgrade, required_step; simpl.
  destruct (decide (Version k ≠ none)) as [Hv|Hv].
  - destruct (Reqs.Required reqs k) as [required|e]; simpl.
    + naive_solver.
    + split; [by intros ?%elem_of_nil|]. by intros (_ & ? & [=] & _).
  - split; [by intros ?%elem_of_nil|]. by intros [? _].
Qed.

Lemma linked_snoc_inv {A : Type} (E : A → A → Prop) l y :
  linked E (l ++ [y]) → linked E l ∧ ∀ x, last l = Some x → E x y.
Proof.
  induction l as [|a [|b l] IH]; simpl.
  - done.
  - intros [? _]. split; [done|]. by intros x [= <-].
  - intros [Hab Hl]. destruct (IH Hl) as [? Hlast]. split; [done|]. done.
Qed.

Lemma linked_impl {A : Type} (E E' : A → A → Prop) l :
  (∀ x y, E x y → E' x y) → linked E l → linked E' l.
Proof.
  intros Himp. induction l as [|a [|b l] IH]; simpl; [done..|].
  intros [? ?]. split; [by apply Himp|by apply IH].
Qed.

Section ErrorReport.
Context (reqs : Reqs.t) (target : module_Version) (st : explorer).
Hypothesis Hex : explored reqs None target st.
Hypothesis Hpend : pending st = [].

Lemma explored_lookup k :
  reachable reqs None target k → modGraph st !! k = Some (node_of reqs None k).
Proof.
  intros Hk. pose proof (explored_complete _ _ _ _ _ Hex Hpend Hk) as [n Hn]%elem_of_dom.
  by rewrite Hn, (ex_node _ _ _ _ Hex _ _ Hn).
Qed.

Lemma explored_dom_reachable k :
  k ∈ dom (modGraph st) → reachable reqs None target k.
Proof. intros Hk. by apply (ex_reach _ _ _ _ Hex), (ex_done _ _ _ _ Hex). Qed.

Lemma explored_search_edge u r :
  reachable reqs None target u →
  (search_edge (modGraph st) u r ↔ required_step reqs u r).
Proof.
  intros Hu. unfold search_edge. rewrite (explored_lookup _ Hu). split.
  - intros (n & [= <-] & _ & Hr). by apply node_of_None_neighbors.
  - intros Hstep. exists (node_of reqs None u). split_and!; [done| |].
    + rewrite node_of_None_err. destruct Hstep as (Hv & required & -> & _).
      by rewrite decide_True.
    + by apply node_of_None_neighbors.
Qed.

Lemma walk_to_reachable v k :
  walk_to (modGraph st) target v k → reachable reqs None target v.
Proof.
  induction 1 as [|u r k _ IH Hedge]; [constructor|].
  apply explored_search_edge in Hedge; [|done].
  eapply reachable_edge; [done|]. by apply out_edges_required.
Qed.

Lemma reachable_walk_to v :
  reachable reqs None target v → ∃ k, walk_to (modGraph st) target v k.
Proof.
  induction 1 as [|u r Hu [k IH] Hr]; [exists 0; constructor|].
  exists (S k). econstructor; [done|]. apply explored_search_edge; [done|].
  by apply out_edges_required.
Qed.

Lemma explored_failing b :
  reachable reqs None target b →
  (failing (modGraph st) b ↔ ∃ e, required_fails reqs b e).
Proof.
  intros Hb. unfold failing, required_fails. rewrite (explored_lookup _ Hb). split.
  - intros (n & [= <-] & [e He]). rewrite node_of_None_err in He.
    destruct (decide (Version b ≠ none)); [|done].
    destruct (Reqs.Required reqs b) as [|e'] eqn:Hr; [done|]. eauto.
  - intros (e & Hv & Hr). eexists. split; [done|].
    rewrite node_of_None_err, decide_True, Hr by done. eauto.
Qed.

(** A path of requirements from the target is a walk of the search. *)
Lemma path_walk p g :
  head p = Some target → last p = Some g → linked (required_step reqs) p →
  walk_to (modGraph st) target g (length p - 1).
Proof.
  revert g. induction p as [|y p IH] using rev_ind; intros g Hhd Hlast Hlink; [done|].
  rewrite last_snoc in Hlast. injection Hlast as ->.
  destruct p as [|a p].
  - simpl in *. injection Hhd as ->. constructor.
  - apply linked_snoc_inv in Hlink as [Hlink Hstep].
    destruct (last (a :: p)) as [x|] eqn:Hx; [|by apply last_None in Hx].
    pose proof (IH x Hhd eq_refl Hlink) as Hwalk.
    replace (length ((a :: p) ++ [g]) - 1) with (S (length (a :: p) - 1))
      by (rewrite length_app; simpl; lia).
    econstructor; [done|].
    apply explored_search_edge; [by eapply walk_to_reachable|]. by apply Hstep.
Qed.

(** A path of the search from the target is a path of requirements. *)
Lemma search_path_required p :
  head p = Some target → linked (search_edge (modGraph st)) p →
  linked (required_step reqs) p ∧
  ∀ g, last p = Some g → walk_to (modGraph st) target g (length p - 1).
Proof.
  induction p as [|y p IH] using rev_ind; intros Hhd Hlink; [done|].
  destruct p as [|a p].
  - simpl in *. injection Hhd as ->. split; [done|]. intros g [= <-]. constructor.
  - apply linked_snoc_inv in Hlink as [Hlink Hstep].
    destruct (last (a :: p)) as [x|] eqn:Hx; [|by apply last_None in Hx].
    destruct (IH Hhd Hlink) as [Hreq Hwalk].
    pose proof (Hwalk x eq_refl) as Hx'.
    assert (Hedge : required_step reqs x y).
    { apply explored_search_edge; [by eapply walk_to_reachable|]. by apply Hstep. }
    split; [by eapply linked_snoc|].
    intros g Hg. rewrite last_snoc in Hg. injection Hg as <-.
    by apply path_walk; [|rewrite last_snoc|eapply linked_snoc].
Qed.
End ErrorReport.

(** ** The error report of [BuildList] *)

(** When the vertices reachable from the target are finitely many, none of
    them requires the target, and the requirements of one of them do not load,
    [BuildList] with enough fuel explores every reachable vertex under any
    schedule and then returns a build-list error: its path leads from the
    target along requirements to a vertex whose requirements do not load, its
    inner error is the provider's error for that vertex, and no path of
    requirements from the target to a vertex whose requirements do not load
    is shorter. *)
Theorem BuildList_reports_a_shortest_error_path
    sched fuel target reqs (U : gset module_Version) f e0 :
  (∀ x, reachable reqs None target x → x ∈ U) →
  (∀ u r, reachable reqs None target u → required_step reqs u r → r ≠ target) →
  reachable reqs None target f → required_fails reqs f e0 →
  size U < fuel →
  ∃ st b,
    Do reqs None sched fuel (explore_init target) = Some st ∧
    pending st = [] ∧
    (∀ x, reachable reqs None target x → x ∈ dom (modGraph st)) ∧
    BuildList sched fuel target reqs = Some (Fail (BuildListErr b)) ∧
    ∃ f',
      head (ble_errPath b) = Some target ∧ last (ble_errPath b) = Some f' ∧
      linked (required_step reqs) (ble_errPath b) ∧
      required_fails reqs f' (ble_Err b) ∧
      ∀ p g e,
        head p = Some target → last p = Some g → linked (required_step reqs) p →
        required_fails reqs g e → length (ble_errPath b) ≤ length p.
Proof.
  intros HU Hsrc Hf Hfail Hfuel.
  destruct (Do_terminates reqs None target sched U fuel (explore_init target))
    as [st Hdo]; [apply explored_init|done|..].
  { simpl. rewrite dom_empty_L, difference_empty_L. done. }
  pose proof (Do_explored _ _ _ _ _ _ _ (explored_init _ _ _) Hdo) as [Hex Hpend].
  assert (Hkey : ∀ k n, modGraph st !! k = Some n → node_m n = k).
  { intros k n Hn. rewrite (ex_node _ _ _ _ Hex _ _ Hn). apply node_of_m. }
  assert (Hnode : ∀ k n, modGraph st !! k = Some n →
            reachable reqs None target k ∧ n = node_of reqs None k).
  { intros k n Hn. split; [|by apply (ex_node _ _ _ _ Hex)].
    apply (explored_dom_reachable _ _ _ Hex). by eapply elem_of_dom_2. }
  assert (Hclosed : ∀ k n r, modGraph st !! k = Some n → node_err n = None →
            r ∈ neighbors n → r ∈ dom (modGraph st)).
  { intros k n r Hn _ Hr. destruct (Hnode _ _ Hn) as [Hk ->].
    apply (explored_complete _ _ _ _ _ Hex Hpend).
    eapply reachable_edge; [done|]. by apply neighbors_out_edges. }
  assert (Hsource : ∀ k n, modGraph st !! k = Some n → node_err n = None →
            target ∉ neighbors n).
  { intros k n Hn _ Hr. destruct (Hnode _ _ Hn) as [Hk ->].
    apply node_of_None_neighbors in Hr. by eapply Hsrc. }
  assert (Hdom : dom (modGraph st) ⊆ U).
  { intros k Hk. by apply HU, (explored_dom_reachable _ _ _ Hex). }
  assert (Hsize : size (dom (modGraph st)) ≤ size U) by (by apply subseteq_size).
  pose proof (explored_lookup _ _ _ Hex Hpend target (reachable_target _ _ _)) as Ht.
  destruct (error_path_finds (modGraph st) target Hkey Hclosed Hsource fuel fuel 0
              {[target := 0]} ∅ ∅ [Some (node_of reqs None target)])
    as (e & p & f' & nf & isUp & Hfound & Hnf & Herr & (Hhd & Hlast & Hlink) & Hmin).
  { by apply bfs_inv_init. }
  { rewrite difference_empty_L. lia. }
  { lia. }
  { destruct (reachable_walk_to _ _ _ Hex Hpend f Hf) as [k Hk].
    exists f, k. split; [done|]. apply (explored_failing _ _ _ Hex Hpend); eauto. }
  assert (Hf' : reachable reqs None target f')
    by (apply (explored_dom_reachable _ _ _ Hex); by eapply elem_of_dom_2).
  assert (Herr' : haveErr st = true).
  { apply (ex_err _ _ _ _ Hex). exists f'. split; [by eapply elem_of_dom_2|].
    destruct (Hnode _ _ Hnf) as [_ ->]. unfold has_err. by rewrite Herr. }
  exists st, (NewBuildListError e p isUp). split_and!; [done|done| | |].
  - intros x Hx. by eapply explored_complete.
  - unfold BuildList, buildList, conclude. rewrite Hdo; simpl. rewrite Herr'.
    rewrite Ht, Hfound. done.
  - exists f'. simpl. split_and!; [done|done| | |].
    + by apply (search_path_required _ _ _ Hex Hpend).
    + destruct (Hnode _ _ Hnf) as [_ ->]. rewrite node_of_None_err in Herr.
      unfold required_fails. destruct (decide (Version f' ≠ none)); [|done].
      by destruct (Reqs.Required reqs f') as [|e'] eqn:Hr; [|injection Herr as ->].
    + intros p' g e' Hhd' Hlast' Hlink' Hg.
      pose proof (path_walk _ _ _ Hex Hpend p' g Hhd' Hlast' Hlink') as Hwalk.
      assert (length p ≤ S (length p' - 1)); [|destruct p'; simpl in *; [done|lia]].
      apply (Hmin g); [done|].
      apply (explored_failing _ _ _ Hex Hpend); [|eauto].
      by eapply walk_to_reachable.
Qed.

Lemma S4_reachable x :
  reachable (Scenarios.provider Scenarios.S4) None (Scenarios.V "R" "") x →
  x = Scenarios.V "R" "" ∨ x = Scenarios.V "A" "1" ∨ x = Scenarios.V "B" "1".
Proof.
  induction 1 as [|u r _ IH Hr]; [by left|].
  apply out_edges_required in Hr as (_ & required & Hreq & Hin).
  destruct IH as [->|[->| ->]]; vm_compute in Hreq; try done;
    injection Hreq as <-; apply list_elem_of_singleton in Hin as ->; auto.
Qed.

Lemma BuildList_error_path_witness :
  let reqs := Scenarios.provider Scenarios.S4 in
  let target := Scenarios.V "R" "" in
  ∃ st b,
    Do reqs None Scenarios.fifo 4 (explore_init target) = Some st ∧
    pending st = [] ∧
    (∀ x, reachable reqs None target x → x ∈ dom (modGraph st)) ∧
    BuildList Scenarios.fifo 4 target reqs = Some (Fail (BuildListErr b)) ∧
    ∃ f',
      head (ble_errPath b) = Some target ∧ last (ble_errPath b) = Some f' ∧
      linked (required_step reqs) (ble_errPath b) ∧
      required_fails reqs f' (ble_Err b) ∧
      ∀ p g e,
        head p = Some target → last p = Some g → linked (required_step reqs) p →
        required_fails reqs g e → length (ble_errPath b) ≤ length p.
Proof.
  intros reqs target.
  apply (BuildList_reports_a_shortest_error_path Scenarios.fifo 4 target reqs
           {[Scenarios.V "R" ""; Scenarios.V "A" "1"; Scenarios.V "B" "1"]}
           (Scenarios.V "B" "1") "E").
  - intros x Hx. destruct (S4_reachable x Hx) as [->|[->| ->]]; set_solver.
  - intros u r Hu (_ & required & Hreq & Hin) ->.
    destruct (S4_reachable u Hu) as [->|[->| ->]]; vm_compute in Hreq; try done;
      injection Hreq as <-; by apply list_elem_of_singleton in Hin.
  - apply (reachable_edge _ _ _ (Scenarios.V "A" "1"));
      [apply (reachable_edge _ _ _ (Scenarios.V "R" "")); [constructor|]|];
      apply out_edges_required; (split; [done|]); eexists; (split; [reflexivity|]);
      by left.
  - by split.
  - vm_compute. lia.
Defined.

(** ** [Req]: the walks over the requirement cache *)

Section ReqWalks.
Context (reqs : Reqs.t).

(** [x] is reached from the roots [L] along the cached requirement lists. *)
Inductive cache_reach (cache : gmap module_Version (list module_Version))
    (L : list module_Version) : module_Version → Prop :=
| cache_root x : x ∈ L → cache_reach cache L x
| cache_edge u required r :
    cache_reach cache L u → cache !! u = Some required → r ∈ required →
    cache_reach cache L r.

Lemma cache_reach_mono cache cache' L x :
  cache ⊆ cache' → cache_reach cache L x → cache_reach cache' L x.
Proof.
  intros Hsub. induction 1 as [|u required r _ IH Hu Hr]; [by constructor|].
  eapply cache_edge; [done| |done]. by eapply lookup_weaken.
Qed.

(** The invariant of the first walk: what is in [postorder] is cached, and
    what is cached is reached from the roots. *)
Definition walk_inv (L : list module_Version) (st : req_walk) : Prop :=
  (∀ x, x ∈ postorder st → x ∈ dom (reqCache st)) ∧
  (∀ k, k ∈ dom (reqCache st) → cache_reach (reqCache st) L k).

Lemma walk_inv_mono L st cache' post' :
  reqCache st ⊆ cache' → walk_inv L st →
  (∀ x, x ∈ post' → x ∈ dom cache') →
  (∀ k, k ∈ dom cache' → k ∉ dom (reqCache st) → cache_reach cache' L k) →
  walk_inv L (mkReqWalk cache' post').
Proof.
  intros Hsub [Hpost Hreach] Hpost' Hnew. split; simpl; [done|].
  intros k Hk. destruct (decide (k ∈ dom (reqCache st))) as [Hin|Hout]; [|by apply Hnew].
  eapply cache_reach_mono; [done|]. by apply Hreach.
Qed.

Lemma for_each_walk_spec L (f : module_Version → req_walk → option (result req_walk))
    l st st' :
  (∀ m s s', f m s = Some (Ok s') → walk_inv L s → cache_reach (reqCache s) L m →
             walk_inv L s' ∧ reqCache s ⊆ reqCache s') →
  for_each f l st = Some (Ok st') → walk_inv L st →
  (∀ m, m ∈ l → cache_reach (reqCache st) L m) →
  walk_inv L st' ∧ reqCache st ⊆ reqCache st'.
Proof.
  intros Hf. revert st. induction l as [|m l IH]; intros st; simpl.
  - by intros [= <-].
  - destruct (f m st) as [[s1|e]|] eqn:Hm; [|done..].
    intros Hrest Hinv Hl.
    destruct (Hf _ _ _ Hm Hinv) as [Hinv1 Hsub1]; [apply Hl; by left|].
    destruct (IH _ Hrest Hinv1) as [Hinv' Hsub'].
    { intros x Hx. eapply cache_reach_mono; [done|]. apply Hl. by right. }
    split; [done|]. by etrans.
Qed.

Lemma walk_spec L fuel m st st' :
  walk reqs fuel m st = Some (Ok st') → walk_inv L st →
  cache_reach (reqCache st) L m →
  walk_inv L st' ∧ reqCache st ⊆ reqCache st'.
Proof.
  revert m st st'. induction fuel as [|fuel IH]; intros m st st'; simpl; [done|].
  destruct (reqCache st !! m) as [cached|] eqn:Hcached; [by intros [= <-]|].
  destruct (Reqs.Required reqs m) as [required|e]; [|done].
  destruct (for_each _ _ _) as [[s1|e]|] eqn:Hfor; [|done..].
  intros [= <-] Hinv Hm.
  assert (Hsub : reqCache st ⊆ <[m := required]> (reqCache st))
    by (by apply insert_subseteq).
  destruct (for_each_walk_spec L (walk reqs fuel) required _ s1 IH Hfor) as [Hinv1 Hsub1].
  - eapply walk_inv_mono; [done|done|..]; simpl.
    + intros x Hx. rewrite dom_insert_L. apply elem_of_union_r. by apply Hinv.
    + intros k. rewrite dom_insert_L. intros [Hk|?]%elem_of_union ?; [|done].
      apply elem_of_singleton in Hk as ->. by eapply cache_reach_mono.
  - simpl. intros r Hr. eapply cache_edge; [|apply lookup_insert_eq|done].
    by eapply cache_reach_mono.
  - split; [|by etrans]. destruct Hinv1 as [Hpost Hreach]. split; simpl; [|done].
    intros x [Hx|Hx]%elem_of_app; [by apply Hpost|].
    apply list_elem_of_singleton in Hx as ->. apply elem_of_dom. eexists. eapply lookup_weaken; [|done]. apply lookup_insert_eq.
Qed.

(** [have] contains the cached requirements of its members, except for the
    members in [S], whose requirements are still being marked. *)
Definition closed_except (cache : gmap module_Version (list module_Version))
    (S have : gset module_Version) : Prop :=
  ∀ u required r, u ∈ have → u ∉ S → cache !! u = Some required → r ∈ required →
                  r ∈ have.

Lemma for_all_have_spec cache S
    (f : module_Version → gset module_Version → option (gset module_Version)) l have have' :
  (∀ m h h', f m h = Some h' → closed_except cache S h →
             h ⊆ h' ∧ m ∈ h' ∧ closed_except cache S h') →
  for_all f l have = Some have' → closed_except cache S have →
  have ⊆ have' ∧ (∀ m, m ∈ l → m ∈ have') ∧ closed_except cache S have'.
Proof.
  intros Hf. revert have. induction l as [|m l IH]; intros have; simpl.
  - intros [= <-] ?. split_and!; [done| |done]. by intros m ?%elem_of_nil.
  - destruct (f m have) as [h1|] eqn:Hm; simpl; [|done].
    intros Hrest Hclosed. destruct (Hf _ _ _ Hm Hclosed) as (Hsub1 & Hm1 & Hclosed1).
    destruct (IH _ Hrest Hclosed1) as (Hsub' & Hl' & Hclosed').
    split_and!; [set_solver| |done].
    intros x [->|?]%elem_of_cons; [set_solver|auto].
Qed.

Lemma walk_have_spec cache S fuel m have have' :
  walk_have cache fuel m have = Some have' → closed_except cache S have →
  have ⊆ have' ∧ m ∈ have' ∧ closed_except cache S have'.
Proof.
  revert S m have have'. induction fuel as [|fuel IH]; intros S m have have'; simpl;
    [done|].
  destruct (decide (m ∈ have)) as [Hin|Hout]; [by intros [= <-]|].
  intros Hfor Hclosed.
  destruct (for_all_have_spec cache ({[m]} ∪ S) (walk_have cache fuel) _ _ _
              (IH ({[m]} ∪ S)) Hfor) as (Hsub & Hl & Hclosed').
  { intros u required r Hu HuS Hreq Hr. apply elem_of_union_r.
    apply (Hclosed u required r); [set_solver|set_solver|done|done]. }
  split_and!; [set_solver|set_solver|].
  intros u required r Hu HuS Hreq Hr.
  destruct (decide (u = m)) as [->|Hne].
  - apply Hl. by rewrite Hreq.
  - apply (Hclosed' u required r); [done|set_solver|done|done].
Qed.

(** A set that holds the roots and is closed holds all that is reached. *)
Lemma closed_holds_reached cache L have x :
  closed_except cache ∅ have → (∀ m, m ∈ L → m ∈ have) →
  cache_reach cache L x → x ∈ have.
Proof.
  intros Hclosed HL. induction 1 as [|u required r _ IH Hu Hr]; [by apply HL|].
  apply (Hclosed u required r); [done|set_solver|done|done].
Qed.
End ReqWalks.

Section ReqLoops.
Context (reqs : Reqs.t).

Lemma max_of_step_other acc l p :
  p ∉ (Path <$> l) →
  foldl (λ (max : gmap string string) m,
           match max !! Path m with
           | Some v => <[Path m := Reqs.Max reqs (Version m) v]> max
           | None => <[Path m := Version m]> max
           end) acc l !! p = acc !! p.
Proof.
  revert acc. induction l as [|a l IH]; intros acc Hp; [done|].
  simpl. rewrite IH by set_solver.
  assert (Path a ≠ p) by set_solver.
  destruct (acc !! Path a); by rewrite lookup_insert_ne.
Qed.

Lemma max_of_step_member acc l m :
  NoDup (Path <$> l) → (∀ x, x ∈ l → acc !! Path x = None) → m ∈ l →
  foldl (λ (max : gmap string string) m,
           match max !! Path m with
           | Some v => <[Path m := Reqs.Max reqs (Version m) v]> max
           | None => <[Path m := Version m]> max
           end) acc l !! Path m = Some (Version m).
Proof.
  revert acc. induction l as [|a l IH]; intros acc Hnd Hfresh Hm;
    [by apply elem_of_nil in Hm|].
  simpl in *. apply NoDup_cons in Hnd as [Ha Hnd].
  rewrite (Hfresh a) by (by left).
  apply elem_of_cons in Hm as [->|Hm].
  - rewrite max_of_step_other by done. apply lookup_insert_eq.
  - apply IH; [done| |done]. intros x Hx.
    rewrite lookup_insert_ne; [apply Hfresh; by right|].
    intros Heq. apply Ha. rewrite Heq. by apply list_elem_of_fmap_2.
Qed.

(** With one entry per path, [max] maps every path of the list to its version. *)
Lemma max_of_lookup l m :
  NoDup (Path <$> l) → m ∈ l → max_of reqs l !! Path m = Some (Version m).
Proof. intros Hnd Hm. apply max_of_step_member; [done| |done]. by intros. Qed.

Lemma max_of_lookup_None l p : p ∉ (Path <$> l) → max_of reqs l !! p = None.
Proof. intros Hp. unfold max_of. by rewrite max_of_step_other. Qed.

Context (cache : gmap module_Version (list module_Version)).
Context (max : gmap string string) (fuel : nat).

(** What the loop over [base] lists for a path. *)
Definition base_entry (path : string) : module_Version :=
  mkVersion path (default "" (max !! path)).

Lemma req_base_loop base st st' :
  for_all (req_base cache max fuel) base st = Some st' →
  closed_except cache ∅ (rm_have st) →
  rm_min st' = rm_min st ++ (base_entry <$> base) ∧
  rm_have st ⊆ rm_have st' ∧
  (∀ p, p ∈ base → base_entry p ∈ rm_have st') ∧
  closed_except cache ∅ (rm_have st').
Proof.
  revert st. induction base as [|p base IH]; intros st; cbn [for_all].
  - intros [= <-] ?. simpl. rewrite app_nil_r. split_and!; [done..| |done].
    by intros p ?%elem_of_nil.
  - destruct (req_base cache max fuel p st) as [s1|] eqn:Hp; simpl; [|done].
    unfold req_base in Hp.
    destruct (walk_have cache fuel (mkVersion p (default "" (max !! p))) (rm_have st))
      as [have|] eqn:Hw; simpl in Hp; [|done].
    injection Hp as <-.
    intros Hrest Hclosed.
    destruct (walk_have_spec _ _ _ _ _ _ Hw Hclosed) as (Hsub & Hin & Hclosed1).
    destruct (IH _ Hrest Hclosed1) as (Hmin & Hsub' & Hall & Hclosed'). simpl in *.
    split_and!; [by rewrite Hmin, <- app_assoc|set_solver| |done].
    intros x [->|?]%elem_of_cons; [set_solver|auto].
Qed.

Lemma req_rest_loop post st st' :
  for_all (req_rest cache max fuel) post st = Some st' →
  ∃ extra,
    rm_min st' = rm_min st ++ extra ∧ rm_have st ⊆ rm_have st' ∧
    ∀ m, m ∈ extra →
         m ∈ post ∧ default "" (max !! Path m) = Version m ∧ m ∉ rm_have st.
Proof.
  revert st. induction post as [|m post IH]; intros st; cbn [for_all].
  - intros [= <-]. exists []. rewrite app_nil_r. split_and!; [done..|].
    by intros m ?%elem_of_nil.
  - destruct (req_rest cache max fuel m st) as [s1|] eqn:Hm; simpl; [|done].
    unfold req_rest in Hm.
    destruct (decide (default "" (max !! Path m) ≠ Version m)) as [Hold|Hcur].
    { injection Hm as <-.
      intros (extra & Hmin & Hsub & Hextra)%IH. exists extra. split_and!; [done..|].
      intros x Hx. destruct (Hextra x Hx) as (? & ? & ?). split_and!; [by right|done..]. }
    destruct (decide (m ∈ rm_have st)) as [Hin|Hout].
    { injection Hm as <-.
      intros (extra & Hmin & Hsub & Hextra)%IH. exists extra. split_and!; [done..|].
      intros x Hx. destruct (Hextra x Hx) as (? & ? & ?). split_and!; [by right|done..]. }
    destruct (walk_have cache fuel m (rm_have st)) as [have|] eqn:Hw; simpl in Hm; [|done].
    injection Hm as <-.
    intros (extra & Hmin & Hsub & Hextra)%IH. simpl in *.
    assert (Hmono : rm_have st ⊆ have).
    { eapply (walk_have_spec cache (rm_have st ∪ have)); [done|].
      intros u required r Hu HuS. set_solver. }
    exists (m :: extra). split_and!; [by rewrite Hmin, <- app_assoc|set_solver|].
    intros x [->|Hx]%elem_of_cons.
    + split_and!; [by left|by apply dec_stable|done].
    + destruct (Hextra x Hx) as (? & ? & ?). split_and!; [by right|done|set_solver].
Qed.
End ReqLoops.

(** ** [Req] over the paths of the build list *)

Lemma Req_Return reqs sched fuel target base l' :
  Req reqs sched fuel target base = Some (Return l') →
  ∃ l w st1 st2,
    BuildList sched fuel target reqs = Some (Return l) ∧
    for_each (walk reqs fuel) l (mkReqWalk {[target := []]} []) = Some (Ok w) ∧
    for_all (req_base (reqCache w) (max_of reqs l) fuel) base (mkReqMin [] ∅) = Some st1 ∧
    for_all (req_rest (reqCache w) (max_of reqs l) fuel) (reverse (postorder w)) st1
      = Some st2 ∧
    l' = sort_Slice (rm_min st2).
Proof.
  unfold Req. destruct (BuildList sched fuel target reqs) as [[l|e|p]|]; simpl; try done.
  destruct (for_each _ _ _) as [[w|e]|] eqn:Hw; simpl; try done.
  destruct (for_all (req_base _ _ _) _ _) as [st1|] eqn:H1; simpl; [|done].
  destruct (for_all (req_rest _ _ _) _ _) as [st2|] eqn:H2; simpl; [|done].
  intros [= <-]. by exists l, w, st1, st2.
Qed.

Lemma build_list_paths_NoDup sched fuel target reqs l :
  BuildList sched fuel target reqs = Some (Return l) →
  NoDup (Path <$> l) ∧ target ∈ l.
Proof.
  intros (selected & _ & tail & -> & Htail & _ & Hnd & _)%buildList_shape_of.
  split; [|by left]. simpl. apply NoDup_cons. split; [|done].
  intros (m & Heq & Hm%Htail)%list_elem_of_fmap. by destruct Hm.
Qed.

(** When [Req] is asked for the paths of the build list and returns a list,
    that list is the build list sorted by path: nothing is left out and
    nothing is added. *)
Theorem Req_of_the_build_list_paths_is_the_sorted_build_list
    sched fuel target reqs l l' :
  BuildList sched fuel target reqs = Some (Return l) →
  Req reqs sched fuel target (Path <$> l) = Some (Return l') →
  l' = sort_Slice l ∧ l' ≡ₚ l.
Proof.
  intros Hbuild (l0 & w & st1 & st2 & Hl0 & Hwalk & Hbase & Hrest & ->)%Req_Return.
  assert (l0 = l) as -> by congruence.
  destruct (build_list_paths_NoDup _ _ _ _ _ Hbuild) as [Hnd Ht].
  destruct (for_each_walk_spec l (walk reqs fuel) l _ w
              (λ m s s', walk_spec reqs l fuel m s s') Hwalk) as [[Hpost Hreach] _].
  { split; simpl; [by intros x ?%elem_of_nil|].
    intros k. rewrite dom_singleton_L. intros ->%elem_of_singleton. by constructor. }
  { intros m Hm. by constructor. }
  destruct (req_base_loop _ _ _ _ _ _ Hbase) as (Hmin1 & _ & Hhave & Hclosed).
  { intros u required r Hu. by apply elem_of_empty in Hu. }
  assert (Hentries : base_entry (max_of reqs l) <$> (Path <$> l) = l).
  { rewrite <- list_fmap_compose. trans (id <$> l); [|apply list_fmap_id].
    apply list_fmap_ext. intros i m Hm%list_elem_of_lookup_2. simpl.
    unfold base_entry. rewrite (max_of_lookup _ _ _ Hnd Hm). by destruct m. }
  rewrite Hentries in Hmin1. simpl in Hmin1.
  destruct (req_rest_loop _ _ _ _ _ _ Hrest) as (extra & Hmin2 & _ & Hextra).
  destruct extra as [|x extra].
  - rewrite app_nil_r in Hmin2. rewrite Hmin2, Hmin1.
    split; [done|apply sort_Slice_perm].
  - exfalso. destruct (Hextra x) as (Hx & _ & Hout); [by left|].
    apply Hout. apply (closed_holds_reached (reqCache w) l); [done| |].
    + intros m Hm. pose proof (Hhave (Path m) (list_elem_of_fmap_2 Path _ _ Hm)) as Hin.
      unfold base_entry in Hin. rewrite (max_of_lookup _ _ _ Hnd Hm) in Hin.
      by destruct m.
    + apply Hreach, Hpost. by apply elem_of_reverse.
Qed.

Lemma Req_round_trip_witness :
  let reqs := Scenarios.provider Scenarios.S2 in
  let l := [Scenarios.V "A" ""; Scenarios.V "B" "1"; Scenarios.V "C" "2"] in
  l = sort_Slice l ∧ l ≡ₚ l.
Proof.
  intros reqs l.
  apply (Req_of_the_build_list_paths_is_the_sorted_build_list
           Scenarios.fifo 10 Scenarios.root reqs l l).
  - vm_compute. reflexivity.
  - vm_compute. reflexivity.
Defined.

(** The entries of the list that [Req] returns: every entry of the build
    list whose path is in [base] is there, a path of [base] that the build
    list does not have is there with the empty version, so every path of
    [base] is listed; and every entry is an entry of the build list or has a
    path outside the build list and the empty version. *)
Theorem Req_lists_every_base_path reqs sched fuel target base l' :
  Req reqs sched fuel target base = Some (Return l') →
  ∃ l, BuildList sched fuel target reqs = Some (Return l) ∧
       (∀ m, m ∈ l → Path m ∈ base → m ∈ l') ∧
       (∀ p, p ∈ base → p ∉ (Path <$> l) → mkVersion p "" ∈ l') ∧
       (∀ p, p ∈ base → p ∈ Path <$> l') ∧
       (∀ m, m ∈ l' → m ∈ l ∨ (Path m ∉ (Path <$> l) ∧ Version m = "")).
Proof.
  intros (l & w & st1 & st2 & Hbuild & Hwalk & Hbase & Hrest & ->)%Req_Return.
  exists l. split; [done|].
  destruct (build_list_paths_NoDup _ _ _ _ _ Hbuild) as [Hnd _].
  destruct (req_base_loop _ _ _ _ _ _ Hbase) as (Hmin1 & _ & _ & _).
  { intros u required r Hu. by apply elem_of_empty in Hu. }
  destruct (req_rest_loop _ _ _ _ _ _ Hrest) as (extra & Hmin2 & _ & Hextra).
  simpl in Hmin1. rewrite Hmin1 in Hmin2.
  assert (Hin : ∀ p, p ∈ base →
            base_entry (max_of reqs l) p ∈ sort_Slice (rm_min st2)).
  { intros p Hp. rewrite sort_Slice_perm, Hmin2. apply elem_of_app. left.
    by apply list_elem_of_fmap_2. }
  assert (Hcase : ∀ p v, default "" (max_of reqs l !! p) = v →
            mkVersion p v ∈ l ∨ (p ∉ (Path <$> l) ∧ v = "")).
  { intros p v Hv. destruct (decide (p ∈ Path <$> l)) as [Hp|Hp].
    - left. apply list_elem_of_fmap in Hp as (m & -> & Hm).
      rewrite (max_of_lookup _ _ _ Hnd Hm) in Hv. simpl in Hv. subst v. by destruct m.
    - right. by rewrite (max_of_lookup_None _ _ _ Hp) in Hv. }
  split_and!.
  - intros m Hm Hp. specialize (Hin _ Hp). unfold base_entry in Hin.
    rewrite (max_of_lookup _ _ _ Hnd Hm) in Hin. by destruct m.
  - intros p Hp Hout. specialize (Hin _ Hp). unfold base_entry in Hin.
    by rewrite (max_of_lookup_None _ _ _ Hout) in Hin.
  - intros p Hp. apply list_elem_of_fmap. eexists. split; [|by apply Hin]. done.
  - intros m. rewrite sort_Slice_perm, Hmin2.
    intros [(p & -> & Hp)%list_elem_of_fmap|Hm]%elem_of_app.
    + by apply Hcase.
    + destruct (Hextra m Hm) as (_ & Hv & _). destruct m as [p v]. by apply Hcase.
Qed.

Lemma Req_base_path_witness :
  let reqs := Scenarios.provider Scenarios.S2 in
  ∃ l, BuildList Scenarios.fifo 10 Scenarios.root reqs = Some (Return l) ∧
       (∀ m, m ∈ l → Path m ∈ ["B"; "Z"] → m ∈ [Scenarios.V "B" "1"; Scenarios.V "Z" ""]) ∧
       (∀ p, p ∈ ["B"; "Z"] → p ∉ (Path <$> l) →
             mkVersion p "" ∈ [Scenarios.V "B" "1"; Scenarios.V "Z" ""]) ∧
       (∀ p, p ∈ ["B"; "Z"] → p ∈ Path <$> [Scenarios.V "B" "1"; Scenarios.V "Z" ""]) ∧
       (∀ m, m ∈ [Scenarios.V "B" "1"; Scenarios.V "Z" ""] →
             m ∈ l ∨ (Path m ∉ (Path <$> l) ∧ Version m = "")).
Proof.
  intros reqs.
  apply (Req_lists_every_base_path reqs Scenarios.fifo 10 Scenarios.root ["B"; "Z"]).
  vm_compute. reflexivity.
Defined.
